(** * Graph traversal (graphs.py): a shallow embedding and its properties

    The development follows
    [1_molecular_representations/1.1_molecular_graph_theory/src/graphs.py]:
    the classes [BaseGraph] and [UndirectedGraph], their storage
    (a [defaultdict(list)] from nodes to edge lists), the traversal
    primitives [_dfs] and [_bfs], the derived queries and the cycle
    detector.  Object fields become the fields of a record that is threaded
    through every method; exceptions become a result type. *)

From stdpp Require Import gmap strings list.
From Stdlib Require Import ZArith Lia.

Set Warnings "-clear-no-such-hyp".

Local Open Scope Z_scope.
Local Open Scope nat_scope.

(** ** Python values *)

(** Nodes are arbitrary hashable Python values ([Any]).  The model covers
    [None], integers and strings; on these, Python equality and hashing are
    structural. *)
Inductive Node :=
  | PyNone
  | PyInt (z : Z)
  | PyStr (s : string).

Global Instance Node_eq_dec : EqDecision Node.
Proof. solve_decision. Defined.

Definition Node_encode (n : Node) : unit + (Z + string) :=
  match n with
  | PyNone => inl tt
  | PyInt z => inr (inl z)
  | PyStr s => inr (inr s)
  end.

Definition Node_decode (x : unit + (Z + string)) : Node :=
  match x with
  | inl _ => PyNone
  | inr (inl z) => PyInt z
  | inr (inr s) => PyStr s
  end.

Global Instance Node_countable : Countable Node.
Proof. refine (inj_countable' Node_encode Node_decode _). by intros []. Defined.

(** Truth value of a node in a boolean context ([... and end_node]). *)
Definition truthy (n : Node) : bool :=
  match n with
  | PyNone => false
  | PyInt z => negb (z =? 0)%Z
  | PyStr s => negb (String.eqb s EmptyString)
  end.

(** An edge is the single-entry dict [{neighbour: weight}]; the weight is an
    integer or [None]. *)
Definition Weight := option Z.
Definition Edge := (Node * Weight)%type.

(** [list(edge.keys())[0]] *)
Definition edge_key (e : Edge) : Node := e.1.

(** ** Exceptions and results *)

Inductive exn :=
  | ValueError (missing_node : Node)   (* f'Node {missing_node} not present in Graph' *)
  | KeyError (key : Node)
  | RuntimeError.                      (* dictionary changed size during iteration *)

Inductive res (A : Type) :=
  | Ret (a : A)
  | Raise (e : exn).
Arguments Ret {A} a.
Arguments Raise {A} e.

(** ** The node storage: an insertion-ordered [defaultdict(list)] *)

Definition Dict := list (Node * list Edge).

Fixpoint dict_get (d : Dict) (k : Node) : option (list Edge) :=
  match d with
  | [] => None
  | (k', v) :: d' => if decide (k = k') then Some v else dict_get d' k
  end.

(** [k in d] *)
Definition dict_contains (d : Dict) (k : Node) : bool :=
  match dict_get d k with Some _ => true | None => false end.

(** The value read by [d[k]]: a missing key reads as the fresh empty list. *)
Definition dict_item (d : Dict) (k : Node) : list Edge :=
  default [] (dict_get d k).

(** The side effect of reading [d[k]] on a defaultdict: a missing key is
    inserted (at the end) with an empty list. *)
Definition dict_touch (d : Dict) (k : Node) : Dict :=
  if dict_contains d k then d else d ++ [(k, [])].

(** [d[k].append(e)] *)
Fixpoint dict_append (d : Dict) (k : Node) (e : Edge) : Dict :=
  match d with
  | [] => [(k, [e])]
  | (k', v) :: d' =>
      if decide (k = k') then (k', v ++ [e]) :: d'
      else (k', v) :: dict_append d' k e
  end.

(** Every edge record of the storage, in key order. *)
Definition dict_entries (d : Dict) : list Edge := concat d.*2.

(** ** The FIFO queue *)

(** Modelled from the spec: the class [FifoQueue] of the module [queues] is
    not part of the sources.  It is taken as a first-in-first-out sequence
    with [enqueue], [dequeue] and an emptiness test (the truth value of the
    queue object). *)
Definition FifoQueue := list Node.

Definition enqueue (q : FifoQueue) (x : Node) : FifoQueue := q ++ [x].

Definition dequeue (q : FifoQueue) : option (Node * FifoQueue) :=
  match q with
  | [] => None
  | x :: q' => Some (x, q')
  end.

(** ** The graph object *)

Inductive GraphClass := BaseGraph | UndirectedGraph.

Record Graph := mkGraph {
  cls : GraphClass;
  _fifo_queue : FifoQueue;
  _nodes : Dict;
  _visited_nodes : gset Node;
  _traversal_order : list Node;
  _has_path : bool
}.

(** [__init__] *)
Definition new_graph (c : GraphClass) (fifo_queue : FifoQueue) : Graph :=
  {| cls := c; _fifo_queue := fifo_queue; _nodes := [];
     _visited_nodes := ∅; _traversal_order := []; _has_path := false |}.

Definition set_fifo_queue (q : FifoQueue) (g : Graph) : Graph :=
  {| cls := cls g; _fifo_queue := q; _nodes := _nodes g;
     _visited_nodes := _visited_nodes g;
     _traversal_order := _traversal_order g; _has_path := _has_path g |}.

Definition set_nodes (d : Dict) (g : Graph) : Graph :=
  {| cls := cls g; _fifo_queue := _fifo_queue g; _nodes := d;
     _visited_nodes := _visited_nodes g;
     _traversal_order := _traversal_order g; _has_path := _has_path g |}.

Definition set_visited_nodes (v : gset Node) (g : Graph) : Graph :=
  {| cls := cls g; _fifo_queue := _fifo_queue g; _nodes := _nodes g;
     _visited_nodes := v;
     _traversal_order := _traversal_order g; _has_path := _has_path g |}.

Definition set_traversal_order (o : list Node) (g : Graph) : Graph :=
  {| cls := cls g; _fifo_queue := _fifo_queue g; _nodes := _nodes g;
     _visited_nodes := _visited_nodes g;
     _traversal_order := o; _has_path := _has_path g |}.

Definition set_has_path (b : bool) (g : Graph) : Graph :=
  {| cls := cls g; _fifo_queue := _fifo_queue g; _nodes := _nodes g;
     _visited_nodes := _visited_nodes g;
     _traversal_order := _traversal_order g; _has_path := b |}.

(** [self._visited_nodes.add(node); self._traversal_order.append(node)] *)
Definition record_visit (node : Node) (g : Graph) : Graph :=
  set_traversal_order (_traversal_order g ++ [node])
    (set_visited_nodes (_visited_nodes g ∪ {[node]}) g).

(** [self._nodes[node]] : the list read, and the object after the read. *)
Definition nodes_item (g : Graph) (node : Node) : list Edge :=
  dict_item (_nodes g) node.
Definition nodes_touch (node : Node) (g : Graph) : Graph :=
  set_nodes (dict_touch (_nodes g) node) g.

(** [self._visited_nodes.clear(); self._traversal_order.clear()] *)
Definition clear_traversal (g : Graph) : Graph :=
  set_traversal_order [] (set_visited_nodes ∅ g).

(** ** BaseGraph *)

Definition add_node (g : Graph) (node : Node) : Graph :=
  if negb (dict_contains (_nodes g) node)
  then set_nodes (_nodes g ++ [(node, [])]) g
  else g.

Definition _validate_nodes (g : Graph) (start_node end_node : Node) : res unit :=
  if negb (dict_contains (_nodes g) start_node)
     || (negb (dict_contains (_nodes g) end_node) && truthy end_node)
  then
    let missing_node :=
      if negb (dict_contains (_nodes g) start_node) then start_node else end_node in
    Raise (ValueError missing_node)
  else Ret tt.

(** A [for] loop over a list whose body may exhaust the recursion budget. *)
Fixpoint for_each {A : Type} (body : A → Graph → option Graph)
    (l : list A) (g : Graph) : option Graph :=
  match l with
  | [] => Some g
  | x :: l' =>
      match body x g with
      | Some g' => for_each body l' g'
      | None => None
      end
  end.

(** [_dfs]; [fuel] bounds the recursion depth, [None] is an exhausted
    budget.  (The recursion limit of the Python interpreter is not
    modelled: the budgets used below are never exhausted.) *)
Fixpoint _dfs (fuel : nat) (node end_node : Node) (g : Graph) : option Graph :=
  match fuel with
  | O => None
  | S fuel' =>
      let g := record_visit node g in
      if decide (node = end_node) then Some (set_has_path true g)
      else
        let edges := nodes_item g node in
        let g := nodes_touch node g in
        for_each
          (λ edge g,
             let neighbour_node := edge_key edge in
             if decide (neighbour_node ∈ _visited_nodes g) then Some g
             else _dfs fuel' neighbour_node end_node g)
          edges g
  end.

(** The body of the [for edge in self._nodes[current_node]] loop of [_bfs]. *)
Definition bfs_visit_edge (g : Graph) (edge : Edge) : Graph :=
  let neighbour_node := edge_key edge in
  if decide (neighbour_node ∈ _visited_nodes g) then g
  else
    record_visit neighbour_node
      (set_fifo_queue (enqueue (_fifo_queue g) neighbour_node) g).

(** The [while self._fifo_queue] loop of [_bfs]; [fuel] bounds the number of
    iterations. *)
Fixpoint bfs_loop (fuel : nat) (end_node : Node) (g : Graph) : option Graph :=
  match fuel with
  | O => None
  | S fuel' =>
      match dequeue (_fifo_queue g) with
      | None => Some g
      | Some (current_node, q) =>
          let g := set_fifo_queue q g in
          if decide (current_node = end_node) then Some (set_has_path true g)
          else
            let edges := nodes_item g current_node in
            let g := nodes_touch current_node g in
            bfs_loop fuel' end_node (foldl bfs_visit_edge g edges)
      end
  end.

(** The state of [_bfs] when it enters its loop. *)
Definition bfs_start (start_node : Node) (g : Graph) : Graph :=
  let g := if bool_decide (size (_visited_nodes g) ≠ 0)
           then set_visited_nodes ∅ g else g in
  let g := if bool_decide (length (_traversal_order g) ≠ 0)
           then set_traversal_order [] g else g in
  let g := set_fifo_queue (enqueue (_fifo_queue g) start_node) g in
  record_visit start_node g.

Definition _bfs (fuel : nat) (start_node end_node : Node) (g : Graph) : option Graph :=
  bfs_loop fuel end_node (bfs_start start_node g).

(** Budgets that the traversals never exhaust (see [_dfs_terminates] and
    [bfs_loop_spec]). *)
Definition dfs_budget (g : Graph) : nat :=
  S (length (dict_entries (_nodes g))).
Definition bfs_budget (g : Graph) : nat :=
  S (length (_fifo_queue g) + length (dict_entries (_nodes g))).

(** The common tail of [find_path] and [find_shortest_path]. *)
Definition take_path (g : Graph) : option (list Node) * Graph :=
  let path := if _has_path g then Some (_traversal_order g) else None in
  let g := if _has_path g then set_has_path false g else g in
  (path, clear_traversal g).

Definition find_path (g : Graph) (start_node end_node : Node)
    : option (res (option (list Node)) * Graph) :=
  match _validate_nodes g start_node end_node with
  | Raise e => Some (Raise e, g)
  | Ret _ =>
      match _dfs (dfs_budget g) start_node end_node g with
      | None => None
      | Some g => let '(path, g) := take_path g in Some (Ret path, g)
      end
  end.

Definition find_shortest_path (g : Graph) (start_node end_node : Node)
    : option (res (option (list Node)) * Graph) :=
  match _validate_nodes g start_node end_node with
  | Raise e => Some (Raise e, g)
  | Ret _ =>
      match _bfs (bfs_budget (bfs_start start_node g)) start_node end_node g with
      | None => None
      | Some g => let '(path, g) := take_path g in Some (Ret path, g)
      end
  end.

Definition _has_traversable_neighbours (node : list Edge) : bool :=
  if bool_decide (length node ≠ 0) then true else false.

(** The [for node in self._nodes] loop of [connected_components].  The keys
    are those of the dict when the loop starts; the dict iterator raises
    [RuntimeError] at its next step when the dict has changed size. *)
Fixpoint cc_loop (size0 : nat) (keys : list Node) (g : Graph)
    : option (res unit * Graph) :=
  match keys with
  | [] => Some (Ret tt, g)
  | node :: keys' =>
      let edges := nodes_item g node in
      let g := nodes_touch node g in
      let body :=
        if _has_traversable_neighbours edges
           && bool_decide (node ∉ _visited_nodes g)
        then _dfs (dfs_budget g) node PyNone g
        else Some g in
      match body with
      | None => None
      | Some g =>
          if bool_decide (length (_nodes g) ≠ size0)
          then Some (Raise RuntimeError, g)
          else cc_loop size0 keys' g
      end
  end.

Definition connected_components (g : Graph)
    : option (res (gset Node) * Graph) :=
  match cc_loop (length (_nodes g)) (_nodes g).*1 g with
  | None => None
  | Some (Raise e, g) => Some (Raise e, g)
  | Some (Ret _, g) =>
      let connected_components := _visited_nodes g in
      Some (Ret connected_components, clear_traversal g)
  end.

(** ** UndirectedGraph *)

(** [BaseGraph._add_edge]: [pass]. *)
Definition BaseGraph_add_edge (g : Graph) (from_node to_node : Node)
    (weight : Weight) : res unit * Graph :=
  (Ret tt, g).

Definition UndirectedGraph_add_edge (g : Graph) (from_node to_node : Node)
    (weight : Weight) : res unit * Graph :=
  match _validate_nodes g from_node to_node with
  | Raise e => (Raise e, g)
  | Ret _ =>
      let g := set_nodes (dict_append (_nodes g) from_node (to_node, weight)) g in
      let g := set_nodes (dict_append (_nodes g) to_node (from_node, weight)) g in
      (Ret tt, g)
  end.

(** [self._add_edge]: the method of the object's class. *)
Definition _add_edge (g : Graph) : Node → Node → Weight → res unit * Graph :=
  match cls g with
  | BaseGraph => BaseGraph_add_edge g
  | UndirectedGraph => UndirectedGraph_add_edge g
  end.

Definition add_edge (g : Graph) (from_node to_node : Node) (weight : Weight)
    : res unit * Graph :=
  _add_edge g from_node to_node weight.

(** The [for edge in self._nodes[current_node]] loop of [_detect_cycles];
    [rec] is the recursive call with [current_node] as parent. *)
Fixpoint detect_scan
    (rec : Node → gmap Node bool → option (res bool * gmap Node bool))
    (parent_node : Node) (edges : list Edge) (visited : gmap Node bool)
    : option (res bool * gmap Node bool) :=
  match edges with
  | [] => Some (Ret false, visited)
  | edge :: edges' =>
      let neighbour_node := edge.1 in
      match visited !! neighbour_node with
      | None => Some (Raise (KeyError neighbour_node), visited)
      | Some false =>
          match rec neighbour_node visited with
          | None => None
          | Some (Raise e, visited) => Some (Raise e, visited)
          | Some (Ret true, visited) => Some (Ret true, visited)
          | Some (Ret false, visited) =>
              detect_scan rec parent_node edges' visited
          end
      | Some true =>
          if decide (parent_node ≠ neighbour_node) then Some (Ret true, visited)
          else detect_scan rec parent_node edges' visited
      end
  end.

(** [_detect_cycles].  [visited] is the dict built by [is_cyclic]; the method
    is only entered on keys of that dict, which are the keys of the
    storage, so that [self._nodes[current_node]] inserts nothing. *)
Fixpoint _detect_cycles (fuel : nat) (d : Dict) (current_node : Node)
    (visited : gmap Node bool) (parent_node : Node)
    : option (res bool * gmap Node bool) :=
  match fuel with
  | O => None
  | S fuel' =>
      let visited := <[current_node := true]> visited in
      detect_scan
        (λ neighbour_node visited,
           _detect_cycles fuel' d neighbour_node visited current_node)
        parent_node (dict_item d current_node) visited
  end.

(** The [for node in visited] loop of [is_cyclic]. *)
Fixpoint is_cyclic_loop (fuel : nat) (d : Dict) (keys : list Node)
    (visited : gmap Node bool) : option (res bool) :=
  match keys with
  | [] => Some (Ret false)
  | node :: keys' =>
      match visited !! node with
      | None => Some (Raise (KeyError node))
      | Some true => is_cyclic_loop fuel d keys' visited
      | Some false =>
          match _detect_cycles fuel d node visited PyNone with
          | None => None
          | Some (Raise e, _) => Some (Raise e)
          | Some (Ret true, _) => Some (Ret true)
          | Some (Ret false, visited) => is_cyclic_loop fuel d keys' visited
          end
      end
  end.

(** [is_cyclic], a method of [UndirectedGraph] only.  It reads the storage
    and changes nothing in the object. *)
Definition is_cyclic (g : Graph) : option (res bool) :=
  let visited : gmap Node bool :=
    list_to_map ((λ node, (node, false)) <$> (_nodes g).*1) in
  is_cyclic_loop (S (length (dict_entries (_nodes g)))) (_nodes g)
    (_nodes g).*1 visited.

(** ** Building graphs *)

Definition add_nodes (l : list Node) (g : Graph) : Graph :=
  foldl add_node g l.

Definition add_edges (l : list (Node * Node)) (g : Graph) : Graph :=
  foldl (λ g e, (add_edge g e.1 e.2 None).2) g l.

Definition A := PyStr "A".
Definition B := PyStr "B".
Definition C := PyStr "C".
Definition D := PyStr "D".

Definition undirected (nodes : list Node) (edges : list (Node * Node)) : Graph :=
  add_edges edges (add_nodes nodes (new_graph UndirectedGraph [])).

Definition cycle4 : Graph :=
  undirected [A; B; C; D] [(A, B); (B, C); (C, D); (D, A)].

Definition star3 : Graph := undirected [A; B; C] [(A, B); (A, C)].

Definition chain4 : Graph :=
  undirected [A; B; C; D] [(A, B); (B, C); (C, D)].

Definition triangle : Graph := undirected [A; B; C] [(A, B); (B, C); (C, A)].

Definition path3 : Graph := undirected [A; B; C] [(A, B); (B, C)].

Definition isolated3 : Graph := undirected [A; B; C] [].

Definition two_edges : Graph := undirected [A; B; C; D] [(A, B); (C, D)].

Definition single_int : Graph :=
  add_node (new_graph UndirectedGraph []) (PyInt 1).

(** [add_node(None)] followed by [add_edge(None, None)]. *)
Definition none_loop : Graph :=
  (add_edge (add_node (new_graph UndirectedGraph []) PyNone)
     PyNone PyNone None).2.

(** ** The public interface as a state machine *)

Inductive Op :=
  | OpAddNode (node : Node)
  | OpAddEdge (from_node to_node : Node) (weight : Weight)
  | OpFindPath (start_node end_node : Node)
  | OpFindShortestPath (start_node end_node : Node)
  | OpConnectedComponents
  | OpIsCyclic.

(** The object after a call, whatever the call returned or raised. *)
Definition exec (op : Op) (g : Graph) : option Graph :=
  match op with
  | OpAddNode node => Some (add_node g node)
  | OpAddEdge u v w => Some (add_edge g u v w).2
  | OpFindPath s e => snd <$> find_path g s e
  | OpFindShortestPath s e => snd <$> find_shortest_path g s e
  | OpConnectedComponents => snd <$> connected_components g
  | OpIsCyclic => (λ _, g) <$> is_cyclic g
  end.

(** The objects that the public interface can produce: a fresh object of
    either class on any queue, and what the calls make of it. *)
Inductive reachable : Graph → Prop :=
  | reachable_new c q : reachable (new_graph c q)
  | reachable_exec op g g' :
      reachable g → exec op g = Some g' → reachable g'.

(** ** Properties of the storage *)

(** Every record [{v: w}] in [u]'s list has its mirror [{u: w}] in [v]'s. *)
Definition symmetric (d : Dict) : Prop :=
  ∀ u v w, (v, w) ∈ dict_item d u → (u, w) ∈ dict_item d v.

Definition symmetricb (d : Dict) : bool :=
  forallb (λ kv : Node * list Edge,
             forallb (λ e : Edge, bool_decide ((kv.1, e.2) ∈ dict_item d e.1)) kv.2)
          d.

(** The neighbours named by the edge records. *)
Definition targets (d : Dict) : gset Node := list_to_set (dict_entries d).*1.

(** Edge records whose neighbour is not in [v]: the measure that bounds the
    traversals. *)
Definition pending (v : gset Node) (es : list Edge) : nat :=
  length (filter (λ e : Edge, e.1 ∉ v) es).

(** Every neighbour named by an edge record is itself a key. *)
Definition closed (d : Dict) : Prop :=
  ∀ n, n ∈ targets d → dict_contains d n = true.

(** What a traversal may change between [g] and [g']: more nodes are
    visited, all of them neighbours named in the storage; keys with empty
    lists may have been inserted, the edge lists are the same. *)
Record trav_rel (g g' : Graph) : Prop := mk_trav_rel {
  trav_cls : cls g' = cls g;
  trav_visited : _visited_nodes g ⊆ _visited_nodes g';
  trav_new : _visited_nodes g' ⊆ _visited_nodes g ∪ targets (_nodes g);
  trav_entries : dict_entries (_nodes g') = dict_entries (_nodes g);
  trav_item : ∀ k, dict_item (_nodes g') k = dict_item (_nodes g) k;
  trav_keys : NoDup (_nodes g).*1 → NoDup (_nodes g').*1
}.

(** What any call that adds no edge may change in the storage. *)
Record store_rel (g g' : Graph) : Prop := mk_store_rel {
  store_cls : cls g' = cls g;
  store_entries : dict_entries (_nodes g') = dict_entries (_nodes g);
  store_item : ∀ k, dict_item (_nodes g') k = dict_item (_nodes g) k;
  store_keys : NoDup (_nodes g).*1 → NoDup (_nodes g').*1
}.

(** No traversal state is held: the state between two public calls. *)
Definition clean (g : Graph) : Prop :=
  _visited_nodes g = ∅ ∧ _traversal_order g = [].

(** [reach d e s n]: [n] is reached from [s] along edge records, never
    leaving the node [e]. *)
Inductive reach (d : Dict) (e s : Node) : Node → Prop :=
  | reach_start : reach d e s s
  | reach_step u v w :
      reach d e s u → u ≠ e → (v, w) ∈ dict_item d u → reach d e s v.

(** The invariant of the loop of [_bfs] started at [s] towards [e] on the
    storage [d]. *)
Definition bfs_inv (d : Dict) (e s : Node) (g : Graph) : Prop :=
  (∀ n, n ∈ _visited_nodes g → reach d e s n)
  ∧ (∀ n, n ∈ _fifo_queue g → reach d e s n)
  ∧ NoDup (_traversal_order g)
  ∧ (∀ n, n ∈ _traversal_order g ↔ n ∈ _visited_nodes g)
  ∧ (∀ k, dict_item (_nodes g) k = dict_item d k).

(** What a call of [_dfs] on an unvisited node adds: the nodes [l] it
    appends to the order are new, distinct, exactly the nodes it visits,
    and each of them other than the end node has all its neighbours
    visited in the end. *)
Definition dfs_adds (e : Node) (g g' : Graph) (l : list Node) : Prop :=
  _traversal_order g' = _traversal_order g ++ l
  ∧ NoDup l
  ∧ (∀ n, n ∈ l ↔ n ∈ _visited_nodes g' ∧ n ∉ _visited_nodes g)
  ∧ _visited_nodes g ⊆ _visited_nodes g'
  ∧ (∀ k, dict_item (_nodes g') k = dict_item (_nodes g) k)
  ∧ (∀ u, u ∈ l → u ≠ e →
          ∀ v w, (v, w) ∈ dict_item (_nodes g) u → v ∈ _visited_nodes g').

(** ** The cycle detector as the design describes it *)

(** [Explore d v c p es v' b]: with [v] the visited nodes, the detector at
    [c] (entered from [p], if any) inspects the neighbours [es] in order and
    ends with [v'] visited; [b] tells whether some step reached an
    already-visited neighbour that is not the immediate parent. *)
Inductive Explore (d : Dict)
    : gset Node → Node → option Node → list Edge → gset Node → bool → Prop :=
  | explore_exhausted v c p :
      Explore d v c p [] v false
  | explore_back_edge v c p nb w es :
      nb ∈ v → p ≠ Some nb →
      Explore d v c p ((nb, w) :: es) v true
  | explore_parent v c p nb w es v' b :
      nb ∈ v → p = Some nb →
      Explore d v c p es v' b →
      Explore d v c p ((nb, w) :: es) v' b
  | explore_descend_cycle v c p nb w es v' :
      nb ∉ v →
      Explore d (v ∪ {[nb]}) nb (Some c) (dict_item d nb) v' true →
      Explore d v c p ((nb, w) :: es) v' true
  | explore_descend v c p nb w es v' v'' b :
      nb ∉ v →
      Explore d (v ∪ {[nb]}) nb (Some c) (dict_item d nb) v' false →
      Explore d v' c p es v'' b →
      Explore d v c p ((nb, w) :: es) v'' b.

(** [ExploreRoots d v roots b]: the detector is started, with no parent, at
    every node of [roots] that is still unvisited. *)
Inductive ExploreRoots (d : Dict) : gset Node → list Node → bool → Prop :=
  | roots_exhausted v :
      ExploreRoots d v [] false
  | roots_visited v n ns b :
      n ∈ v → ExploreRoots d v ns b → ExploreRoots d v (n :: ns) b
  | roots_cycle v n ns v' :
      n ∉ v →
      Explore d (v ∪ {[n]}) n None (dict_item d n) v' true →
      ExploreRoots d v (n :: ns) true
  | roots_next v n ns v' b :
      n ∉ v →
      Explore d (v ∪ {[n]}) n None (dict_item d n) v' false →
      ExploreRoots d v' ns b →
      ExploreRoots d v (n :: ns) b.

(** The nodes that the dict [visited] of [is_cyclic] maps to [True]. *)
Definition marked (visited : gmap Node bool) : gset Node :=
  dom (filter (λ kv : Node * bool, kv.2 = true) visited).

(** The parent as the code passes it ([None] when there is none) against
    the parent as the design has it. *)
Definition parent_repr (parent_node : Node) (p : option Node) : Prop :=
  p = Some parent_node ∨ (p = None ∧ parent_node = PyNone).

(** Some traversal step of the whole detection reaches a back-edge. *)
Definition reaches_back_edge (d : Dict) : Prop :=
  ExploreRoots d ∅ d.*1 true.

(** ** Connectivity *)

(** [nodes]: the getter of the storage. *)
Definition nodes (g : Graph) : Dict := _nodes g.

(** [v] is a neighbour named in the edge list of [u]. *)
Definition edge (d : Dict) (u v : Node) : Prop :=
  ∃ w, (v, w) ∈ dict_item d u.

(** [b] is reached from [a] by following edge records. *)
Definition connected (d : Dict) (a b : Node) : Prop := rtc (edge d) a b.

(** The invariant of the loop of [_bfs] that gives its completeness: a
    visited node is still queued, or it is not the end node and all its
    neighbours are visited. *)
Definition bfs_done (d : Dict) (e : Node) (g : Graph) : Prop :=
  ∀ u, u ∈ _visited_nodes g →
       u ∈ _fifo_queue g
       ∨ (u ≠ e ∧ ∀ v w, (v, w) ∈ dict_item d u → v ∈ _visited_nodes g).

(** ** Changing the weights *)

(** The storage with every weight [w] replaced by [f w]. *)
Definition reweight_edge (f : Weight → Weight) (e : Edge) : Edge :=
  (e.1, f e.2).
Definition reweight_dict (f : Weight → Weight) (d : Dict) : Dict :=
  (λ kv : Node * list Edge, (kv.1, reweight_edge f <$> kv.2)) <$> d.
Definition reweight (f : Weight → Weight) (g : Graph) : Graph :=
  set_nodes (reweight_dict f (_nodes g)) g.

(** * Properties *)

(** ** The storage *)

Lemma dict_get_app (d1 d2 : Dict) (k : Node) :
  dict_get (d1 ++ d2) k =
  match dict_get d1 k with Some v => Some v | None => dict_get d2 k end.
Proof.
  induction d1 as [|[k' v] d1 IH]; simpl; [done|].
  by destruct (decide (k = k')).
Qed.

Lemma dict_contains_elem (d : Dict) (k : Node) :
  dict_contains d k = true ↔ k ∈ d.*1.
Proof.
  unfold dict_contains.
  induction d as [|[k' v] d IH]; simpl.
  - split; [done|]. intros H. by apply elem_of_nil in H.
  - destruct (decide (k = k')) as [->|Hne].
    + split; [intros _; apply list_elem_of_here | done].
    + rewrite IH. split; [apply list_elem_of_further|].
      intros H. apply elem_of_cons in H as [?|?]; [done|done].
Qed.

Lemma dict_item_missing (d : Dict) (k : Node) :
  dict_contains d k = false → dict_item d k = [].
Proof.
  unfold dict_contains, dict_item. by destruct (dict_get d k).
Qed.

Lemma dict_touch_present (d : Dict) (k : Node) :
  dict_contains d k = true → dict_touch d k = d.
Proof. unfold dict_touch. by intros ->. Qed.

Lemma dict_item_touch (d : Dict) (k k' : Node) :
  dict_item (dict_touch d k) k' = dict_item d k'.
Proof.
  unfold dict_touch, dict_contains, dict_item.
  destruct (dict_get d k) eqn:Hk; [done|].
  rewrite dict_get_app. destruct (dict_get d k'); [done|].
  simpl. by destruct (decide (k' = k)).
Qed.

Lemma dict_entries_touch (d : Dict) (k : Node) :
  dict_entries (dict_touch d k) = dict_entries d.
Proof.
  unfold dict_touch, dict_entries. destruct (dict_contains d k); [done|].
  rewrite fmap_app, concat_app. simpl. by rewrite app_nil_r.
Qed.

Lemma dict_item_entries (d : Dict) (k : Node) (e : Edge) :
  e ∈ dict_item d k → e ∈ dict_entries d.
Proof.
  unfold dict_item, dict_entries.
  induction d as [|[k' v] d IH]; simpl.
  - intros H. by apply elem_of_nil in H.
  - destruct (decide (k = k')); simpl; intros H; apply elem_of_app; auto.
Qed.

Lemma dict_item_append (d : Dict) (k : Node) (e : Edge) (k' : Node) :
  dict_item (dict_append d k e) k' =
  if decide (k' = k) then dict_item d k ++ [e] else dict_item d k'.
Proof.
  unfold dict_item.
  induction d as [|[k0 v] d IH]; simpl.
  - destruct (decide (k' = k)); [done|done].
  - destruct (decide (k = k0)) as [->|Hne]; simpl.
    + destruct (decide (k' = k0)) as [->|Hne']; done.
    + destruct (decide (k' = k0)) as [->|Hne'].
      * by destruct (decide (k0 = k)).
      * apply IH.
Qed.

Lemma targets_spec (d : Dict) (n : Node) :
  n ∈ targets d ↔ ∃ w, (n, w) ∈ dict_entries d.
Proof.
  unfold targets. rewrite elem_of_list_to_set, list_elem_of_fmap.
  split.
  - intros [[n' w] [-> H]]. by exists w.
  - intros [w H]. by exists (n, w).
Qed.

(** ** The measure *)

Lemma pending_le_length (v : gset Node) (es : list Edge) :
  pending v es ≤ length es.
Proof. unfold pending. apply length_filter. Qed.

Lemma pending_mono (v v' : gset Node) (es : list Edge) :
  v ⊆ v' → pending v' es ≤ pending v es.
Proof.
  intros Hsub. unfold pending.
  induction es as [|e es IH]; simpl; [done|].
  rewrite !filter_cons.
  destruct (decide (e.1 ∉ v')) as [H'|H'];
    destruct (decide (e.1 ∉ v)) as [H|H]; simpl; try lia.
  exfalso. apply H. intros Hv. apply H'. set_solver.
Qed.

Lemma pending_lt (v : gset Node) (n : Node) (es : list Edge) :
  n ∉ v → n ∈ es.*1 → pending (v ∪ {[n]}) es < pending v es.
Proof.
  intros Hn Hin. unfold pending.
  induction es as [|e es IH]; simpl in *.
  - by apply elem_of_nil in Hin.
  - rewrite !filter_cons.
    pose proof (pending_mono v (v ∪ {[n]}) es (union_subseteq_l _ _)) as Hmono.
    unfold pending in Hmono.
    apply elem_of_cons in Hin as [->|Hin].
    + rewrite decide_False by set_solver.
      rewrite decide_True by done. simpl. lia.
    + specialize (IH Hin).
      destruct (decide (e.1 ∉ v ∪ {[n]})); destruct (decide (e.1 ∉ v));
        simpl; try lia.
      set_solver.
Qed.

(** ** Depth-first search *)

Lemma trav_rel_refl (g : Graph) : trav_rel g g.
Proof. split; [done|done|set_solver|done|done|done]. Qed.

(** A traversal step that keeps the storage and visits nodes named in it. *)
Lemma trav_rel_same_nodes (g g' : Graph) :
  cls g' = cls g → _nodes g' = _nodes g →
  _visited_nodes g ⊆ _visited_nodes g' →
  _visited_nodes g' ⊆ _visited_nodes g ∪ targets (_nodes g) →
  trav_rel g g'.
Proof. intros Hc Hn Hv Ht. split; [done|done|done|..]; by rewrite Hn. Qed.

Lemma dict_touch_NoDup (d : Dict) (k : Node) :
  NoDup d.*1 → NoDup (dict_touch d k).*1.
Proof.
  unfold dict_touch. destruct (dict_contains d k) eqn:Hk; [done|].
  intros Hd. rewrite fmap_app. apply NoDup_app. split_and!; [done| |].
  - intros x Hx Hx'. simpl in Hx'. apply list_elem_of_singleton in Hx' as ->.
    apply dict_contains_elem in Hx. congruence.
  - simpl. apply NoDup_singleton.
Qed.

Lemma trav_rel_touch (g : Graph) (k : Node) : trav_rel g (nodes_touch k g).
Proof.
  split; simpl; [done|done|set_solver|apply dict_entries_touch| |].
  - intros k'. apply dict_item_touch.
  - apply dict_touch_NoDup.
Qed.

Lemma trav_rel_trans (g1 g2 g3 : Graph) :
  trav_rel g1 g2 → trav_rel g2 g3 → trav_rel g1 g3.
Proof.
  intros [Hc1 Hv1 Hn1 He1 Hi1 Hk1] [Hc2 Hv2 Hn2 He2 Hi2 Hk2].
  split; [| | | | |by auto].
  - congruence.
  - set_solver.
  - assert (targets (_nodes g2) = targets (_nodes g1)) as Ht
      by (unfold targets; by rewrite He1).
    rewrite Ht in Hn2. clear -Hn1 Hn2. set_solver.
  - congruence.
  - intros k. by rewrite Hi2.
Qed.

Lemma trav_rel_pending (g g' : Graph) :
  trav_rel g g' →
  pending (_visited_nodes g') (dict_entries (_nodes g'))
  ≤ pending (_visited_nodes g) (dict_entries (_nodes g)).
Proof.
  intros [_ Hv _ He _ _]. rewrite He. by apply pending_mono.
Qed.

Lemma trav_rel_closed (g g' : Graph) :
  trav_rel g g' → targets (_nodes g') = targets (_nodes g).
Proof. intros [_ _ _ He _ _]. unfold targets. by rewrite He. Qed.

(** The loop of [_dfs] over the edges of the current node, given that the
    recursive calls behave. *)
Lemma dfs_loop_spec (fuel : nat) (end_node : Node) :
  (∀ node g,
     pending (_visited_nodes g ∪ {[node]}) (dict_entries (_nodes g)) < fuel →
     ∃ g', _dfs fuel node end_node g = Some g'
           ∧ trav_rel (record_visit node g) g'
           ∧ _fifo_queue g' = _fifo_queue g
           ∧ (dict_contains (_nodes g) node = true → closed (_nodes g) →
              _nodes g' = _nodes g)) →
  ∀ (es : list Edge) (g : Graph),
    (∀ e, e ∈ es → e ∈ dict_entries (_nodes g)) →
    pending (_visited_nodes g) (dict_entries (_nodes g)) ≤ fuel →
    ∃ g',
      for_each
        (λ edge g,
           let neighbour_node := edge_key edge in
           if decide (neighbour_node ∈ _visited_nodes g) then Some g
           else _dfs fuel neighbour_node end_node g) es g = Some g'
      ∧ trav_rel g g'
      ∧ _fifo_queue g' = _fifo_queue g
      ∧ (closed (_nodes g) → _nodes g' = _nodes g).
Proof.
  intros Hrec es. induction es as [|e es IH]; intros g Hes Hfuel.
  - exists g. simpl. split_and!; [done|apply trav_rel_refl|done|done].
  - assert (He : e ∈ dict_entries (_nodes g)) by (apply Hes; left).
    assert (Ht : e.1 ∈ targets (_nodes g)).
    { apply targets_spec. exists e.2. by destruct e. }
    simpl. unfold edge_key.
    destruct (decide (e.1 ∈ _visited_nodes g)) as [Hin|Hnin].
    + apply IH; [|done]. intros e' He'. apply Hes. by right.
    + destruct (Hrec e.1 g) as (g1 & -> & Hrel & Hq & Hnodes).
      { eapply Nat.lt_le_trans; [|exact Hfuel].
        apply pending_lt; [done|].
        apply list_elem_of_fmap. by exists e. }
      assert (Hrel1 : trav_rel g g1).
      { destruct Hrel as [Hc Hv Hn Hen Hi Hk]. simpl in *.
        split; [done| | |done|done|done]; clear -Hv Hn Ht; set_solver. }
      destruct (IH g1) as (g' & Hg' & Hrel' & Hq' & Hnodes').
      { intros e' He'. rewrite (trav_entries _ _ Hrel1). apply Hes. by right. }
      { etrans; [by apply trav_rel_pending|done]. }
      exists g'. split_and!.
      * done.
      * by eapply trav_rel_trans.
      * congruence.
      * intros Hcl.
        assert (_nodes g1 = _nodes g) as Heq by (apply Hnodes; [by apply Hcl|done]).
        rewrite <- Heq. apply Hnodes'. by rewrite Heq.
Qed.

(** [_dfs] returns whenever its budget exceeds the number of edge records
    that lead to unvisited nodes, and then it has only visited more nodes. *)
Lemma _dfs_spec (fuel : nat) (end_node : Node) :
  ∀ node g,
    pending (_visited_nodes g ∪ {[node]}) (dict_entries (_nodes g)) < fuel →
    ∃ g', _dfs fuel node end_node g = Some g'
          ∧ trav_rel (record_visit node g) g'
          ∧ _fifo_queue g' = _fifo_queue g
          ∧ (dict_contains (_nodes g) node = true → closed (_nodes g) →
             _nodes g' = _nodes g).
Proof.
  induction fuel as [|fuel IH]; intros node g Hfuel; [lia|].
  simpl. destruct (decide (node = end_node)) as [Heq|Hne].
  - eexists. split; [done|]. split_and!; [|done|done].
    apply trav_rel_same_nodes; simpl; [done|done|done|set_solver].
  - destruct (dfs_loop_spec fuel end_node IH
                (nodes_item (record_visit node g) node)
                (nodes_touch node (record_visit node g)))
      as (g' & Hg' & Hrel & Hq & Hnodes).
    + intros e He. simpl. rewrite dict_entries_touch.
      by eapply dict_item_entries.
    + simpl. rewrite dict_entries_touch. lia.
    + exists g'. split; [exact Hg'|]. split_and!.
      * eapply trav_rel_trans; [|exact Hrel].
        apply (trav_rel_touch (record_visit node g)).
      * done.
      * intros Hk Hcl. simpl in Hnodes.
        rewrite (dict_touch_present _ _ Hk) in Hnodes. by apply Hnodes.
Qed.

Lemma _dfs_terminates (g : Graph) (node end_node : Node) :
  ∃ g', _dfs (dfs_budget g) node end_node g = Some g'
        ∧ trav_rel (record_visit node g) g'
        ∧ _fifo_queue g' = _fifo_queue g
        ∧ (dict_contains (_nodes g) node = true → closed (_nodes g) →
           _nodes g' = _nodes g).
Proof.
  apply _dfs_spec. unfold dfs_budget.
  pose proof (pending_le_length (_visited_nodes g ∪ {[node]})
                (dict_entries (_nodes g))). lia.
Qed.

(** ** Breadth-first search *)

(** The inner loop of [_bfs]: every enqueued node uses up an edge record
    that led to an unvisited node. *)
Lemma bfs_edges_spec (es : list Edge) :
  ∀ g : Graph,
    (∀ e, e ∈ es → e ∈ dict_entries (_nodes g)) →
    trav_rel g (foldl bfs_visit_edge g es)
    ∧ _nodes (foldl bfs_visit_edge g es) = _nodes g
    ∧ _has_path (foldl bfs_visit_edge g es) = _has_path g
    ∧ length (_fifo_queue (foldl bfs_visit_edge g es))
      + pending (_visited_nodes (foldl bfs_visit_edge g es))
          (dict_entries (_nodes g))
      ≤ length (_fifo_queue g)
        + pending (_visited_nodes g) (dict_entries (_nodes g))
    ∧ (∀ n, n ∈ _fifo_queue (foldl bfs_visit_edge g es) →
            n ∈ _fifo_queue g ∨ n ∈ targets (_nodes g)).
Proof.
  induction es as [|e es IH]; intros g Hes; simpl.
  - split_and!; [apply trav_rel_refl|done|done|done|by left].
  - assert (He : e ∈ dict_entries (_nodes g)) by (apply Hes; left).
    assert (Ht : e.1 ∈ targets (_nodes g)).
    { apply targets_spec. exists e.2. by destruct e. }
    assert (Hes' : ∀ e', e' ∈ es → e' ∈ dict_entries (_nodes g))
      by (intros e' He'; apply Hes; by right).
    unfold bfs_visit_edge at 2 4 6 8 10 12. unfold edge_key.
    destruct (decide (e.1 ∈ _visited_nodes g)) as [Hin|Hnin]; [by apply IH|].
    set (g1 := record_visit e.1
                 (set_fifo_queue (enqueue (_fifo_queue g) e.1) g)).
    destruct (IH g1 Hes') as (Hrel & Hn & Hp & Hm & Hq).
    assert (Hrel1 : trav_rel g g1).
    { apply trav_rel_same_nodes; simpl; [done|done|..]; clear -Ht; set_solver. }
    split_and!.
    + by eapply trav_rel_trans.
    + by rewrite Hn.
    + by rewrite Hp.
    + etrans; [exact Hm|]. simpl. unfold enqueue. rewrite length_app. simpl.
      assert (pending (_visited_nodes g ∪ {[e.1]}) (dict_entries (_nodes g))
              < pending (_visited_nodes g) (dict_entries (_nodes g))).
      { apply pending_lt; [done|]. apply list_elem_of_fmap. by exists e. }
      lia.
    + intros n Hin. destruct (Hq n Hin) as [Hq1|Hq1]; [|by right].
      simpl in Hq1. unfold enqueue in Hq1.
      apply elem_of_app in Hq1 as [?|Hq1]; [by left|].
      apply list_elem_of_singleton in Hq1 as ->. by right.
Qed.

(** The [while] loop of [_bfs] returns within its budget.  It ends either
    on an empty queue, the flag untouched, or by setting the flag at
    [end_node], which then was queued or is a neighbour in the storage. *)
Lemma bfs_loop_spec (fuel : nat) (end_node : Node) :
  ∀ g : Graph,
    length (_fifo_queue g)
    + pending (_visited_nodes g) (dict_entries (_nodes g)) < fuel →
    ∃ g', bfs_loop fuel end_node g = Some g'
          ∧ trav_rel g g'
          ∧ ((_has_path g' = _has_path g ∧ _fifo_queue g' = [])
             ∨ (_has_path g' = true
                ∧ (end_node ∈ _fifo_queue g ∨ end_node ∈ targets (_nodes g)))).
Proof.
  induction fuel as [|fuel IH]; intros g Hfuel; [lia|].
  simpl. destruct (_fifo_queue g) as [|current q] eqn:Hq; simpl.
  - exists g. split_and!; [done|apply trav_rel_refl|by left].
  - destruct (decide (current = end_node)) as [->|Hne].
    + eexists. split_and!; [done| |].
      * apply trav_rel_same_nodes; simpl; [done|done|done|set_solver].
      * right. split; [done|]. left. left.
    + set (g1 := nodes_touch current (set_fifo_queue q g)).
      set (es := nodes_item (set_fifo_queue q g) current).
      assert (Hes : ∀ e, e ∈ es → e ∈ dict_entries (_nodes g1)).
      { intros e He. simpl. rewrite dict_entries_touch.
        by eapply dict_item_entries. }
      destruct (bfs_edges_spec es g1 Hes) as (Hrel & Hn & Hp & Hm & Hqs).
      simpl in Hm, Hn, Hp, Hqs. rewrite dict_entries_touch in Hm.
      assert (Hrel1 : trav_rel g g1).
      { eapply trav_rel_trans; [|apply trav_rel_touch].
        apply trav_rel_same_nodes; simpl; [done|done|done|set_solver]. }
      destruct (IH (foldl bfs_visit_edge g1 es)) as (g' & Hg' & Hrel' & Hend).
      { rewrite Hn. simpl. rewrite dict_entries_touch. simpl in Hfuel. lia. }
      exists g'. split_and!; [done| |].
      * eapply trav_rel_trans; [exact Hrel1|]. by eapply trav_rel_trans.
      * assert (Ht1 : targets (_nodes g1) = targets (_nodes g))
          by (by apply trav_rel_closed).
        assert (Ht2 : targets (_nodes (foldl bfs_visit_edge g1 es))
                      = targets (_nodes g1))
          by (by apply trav_rel_closed).
        destruct Hend as [[Hh He]|[Hh He]].
        -- left. split; [congruence|done].
        -- right. split; [done|]. rewrite Ht2, Ht1 in He.
           destruct He as [He|He]; [|by right].
           destruct (Hqs _ He) as [?|Hin]; [left; by right|].
           right. by rewrite <- Ht1.
Qed.

(** ** The derived queries return *)

Lemma trav_store_rel (g g' : Graph) : trav_rel g g' → store_rel g g'.
Proof. intros [Hc _ _ He Hi Hk]. by split. Qed.

Lemma store_rel_refl (g : Graph) : store_rel g g.
Proof. by split. Qed.

Lemma store_rel_trans (g1 g2 g3 : Graph) :
  store_rel g1 g2 → store_rel g2 g3 → store_rel g1 g3.
Proof.
  intros [Hc1 He1 Hi1 Hk1] [Hc2 He2 Hi2 Hk2].
  split; [congruence|congruence| |by auto].
  intros k. by rewrite Hi2.
Qed.

Lemma store_rel_same_nodes (g g' : Graph) :
  cls g' = cls g → _nodes g' = _nodes g → store_rel g g'.
Proof. intros Hc Hn. split; [done|..]; by rewrite Hn. Qed.

Lemma take_path_spec (g : Graph) :
  (take_path g).1 = (if _has_path g then Some (_traversal_order g) else None)
  ∧ cls (take_path g).2 = cls g
  ∧ _nodes (take_path g).2 = _nodes g
  ∧ _fifo_queue (take_path g).2 = _fifo_queue g
  ∧ _has_path (take_path g).2 = false
  ∧ clean (take_path g).2.
Proof.
  unfold take_path, clean. by destruct (_has_path g) eqn:Hp.
Qed.

Lemma _validate_nodes_cases (g : Graph) (start_node end_node : Node) :
  _validate_nodes g start_node end_node = Ret tt
  ∨ ∃ n, _validate_nodes g start_node end_node = Raise (ValueError n).
Proof.
  unfold _validate_nodes.
  destruct (negb _ || _); [right; by eexists | by left].
Qed.

Lemma find_path_returns (g : Graph) (start_node end_node : Node) :
  ∃ r g', find_path g start_node end_node = Some (r, g')
          ∧ store_rel g g'
          ∧ _fifo_queue g' = _fifo_queue g
          ∧ (clean g → clean g').
Proof.
  unfold find_path.
  destruct (_validate_nodes_cases g start_node end_node) as [->|[n ->]].
  - destruct (_dfs_terminates g start_node end_node)
      as (g1 & -> & Hrel & Hq & _).
    destruct (take_path_spec g1) as (_ & Hc & Hn & Hq' & _ & Hclean).
    destruct (take_path g1) as [path g2]. simpl in *.
    eexists _, _. split_and!; [done| |congruence|done].
    eapply store_rel_trans; [|by apply store_rel_same_nodes].
    eapply store_rel_trans; [|by apply trav_store_rel].
    by apply store_rel_same_nodes.
  - eexists _, _. split_and!; [done|apply store_rel_refl|done|done].
Qed.

Lemma bfs_start_spec (start_node : Node) (g : Graph) :
  cls (bfs_start start_node g) = cls g
  ∧ _nodes (bfs_start start_node g) = _nodes g
  ∧ _fifo_queue (bfs_start start_node g) = _fifo_queue g ++ [start_node]
  ∧ _visited_nodes (bfs_start start_node g) = {[start_node]}
  ∧ _traversal_order (bfs_start start_node g) = [start_node]
  ∧ _has_path (bfs_start start_node g) = _has_path g.
Proof.
  unfold bfs_start.
  destruct (bool_decide (size (_visited_nodes g) ≠ 0)) eqn:Hv;
    destruct (bool_decide (length (_traversal_order _) ≠ 0)) eqn:Ho; simpl in *;
    split_and!; try done.
  all: try (apply bool_decide_eq_false in Hv; apply dec_stable in Hv;
            apply size_empty_inv in Hv; apply leibniz_equiv in Hv;
            rewrite Hv; clear; set_solver).
  all: try (clear; set_solver).
  all: apply bool_decide_eq_false in Ho; apply dec_stable in Ho;
       apply nil_length_inv in Ho; by rewrite Ho.
Qed.

Lemma find_shortest_path_returns (g : Graph) (start_node end_node : Node) :
  ∃ r g', find_shortest_path g start_node end_node = Some (r, g')
          ∧ store_rel g g'
          ∧ (clean g → clean g').
Proof.
  unfold find_shortest_path, _bfs.
  destruct (_validate_nodes_cases g start_node end_node) as [->|[n ->]].
  - destruct (bfs_start_spec start_node g) as (Hc0 & Hn0 & _).
    destruct (bfs_loop_spec (bfs_budget (bfs_start start_node g)) end_node
                (bfs_start start_node g)) as (g1 & -> & Hrel & _).
    { unfold bfs_budget.
      pose proof (pending_le_length (_visited_nodes (bfs_start start_node g))
                    (dict_entries (_nodes (bfs_start start_node g)))). lia. }
    destruct (take_path_spec g1) as (_ & Hc & Hn & Hq' & _ & Hclean).
    destruct (take_path g1) as [path g2]. simpl in *.
    eexists _, _. split_and!; [done| |done].
    eapply store_rel_trans; [|by apply store_rel_same_nodes].
    eapply store_rel_trans; [|by apply trav_store_rel].
    by apply store_rel_same_nodes.
  - eexists _, _. split_and!; [done|apply store_rel_refl|done].
Qed.

Lemma _has_traversable_neighbours_spec (node : list Edge) :
  _has_traversable_neighbours node = true ↔ node ≠ [].
Proof.
  unfold _has_traversable_neighbours. destruct node; simpl; split; done.
Qed.

(** With unique keys, every edge record is in the list of some key. *)
Lemma dict_entries_item (d : Dict) (e : Edge) :
  NoDup d.*1 → e ∈ dict_entries d →
  ∃ k, dict_contains d k = true ∧ e ∈ dict_item d k.
Proof.
  unfold dict_entries, dict_item, dict_contains.
  induction d as [|[k0 l] d IH]; simpl; intros Hnd He.
  - by apply elem_of_nil in He.
  - apply NoDup_cons in Hnd as [Hk0 Hnd].
    apply elem_of_app in He as [He|He].
    + exists k0. by rewrite decide_True.
    + destruct (IH Hnd He) as (k & Hk & Hin). exists k.
      destruct (decide (k = k0)) as [->|Hne]; [|done].
      exfalso. apply Hk0. apply dict_contains_elem.
      unfold dict_contains. by destruct (dict_get d k0).
Qed.

(** In a symmetric storage every neighbour is a key with a non-empty list. *)
Lemma symmetric_targets (d : Dict) (n : Node) :
  NoDup d.*1 → symmetric d → n ∈ targets d →
  dict_item d n ≠ [] ∧ dict_contains d n = true.
Proof.
  intros Hnd Hsym Hn. apply targets_spec in Hn as [w Hn].
  destruct (dict_entries_item d _ Hnd Hn) as (k & _ & Hk).
  apply Hsym in Hk.
  assert (dict_item d n ≠ []) as Hne.
  { intros Heq. rewrite Heq in Hk. by apply elem_of_nil in Hk. }
  split; [done|]. destruct (dict_contains d n) eqn:Hc; [done|].
  by apply dict_item_missing in Hc.
Qed.

Lemma symmetric_closed (d : Dict) : NoDup d.*1 → symmetric d → closed d.
Proof. intros Hnd Hsym n Hn. by apply symmetric_targets. Qed.

Lemma cc_loop_cons (size0 : nat) (node : Node) (keys : list Node) (g : Graph) :
  cc_loop size0 (node :: keys) g =
  match
    (if _has_traversable_neighbours (nodes_item g node)
        && bool_decide (node ∉ _visited_nodes (nodes_touch node g))
     then _dfs (dfs_budget (nodes_touch node g)) node PyNone (nodes_touch node g)
     else Some (nodes_touch node g))
  with
  | None => None
  | Some g2 =>
      if bool_decide (length (_nodes g2) ≠ size0)
      then Some (Raise RuntimeError, g2)
      else cc_loop size0 keys g2
  end.
Proof. reflexivity. Qed.

(** The loop of [connected_components].  It always returns; on a closed
    storage it raises nothing, keeps the storage, and visits the keys with
    edges and, besides, only neighbours. *)
Lemma cc_loop_spec (size0 : nat) (keys : list Node) :
  ∀ g : Graph,
    ∃ r g', cc_loop size0 keys g = Some (r, g')
      ∧ store_rel g g'
      ∧ _fifo_queue g' = _fifo_queue g
      ∧ _visited_nodes g ⊆ _visited_nodes g'
      ∧ (closed (_nodes g) →
         (∀ k, k ∈ keys → dict_contains (_nodes g) k = true) →
         size0 = length (_nodes g) →
         r = Ret tt ∧ _nodes g' = _nodes g
         ∧ (∀ k, k ∈ keys → dict_item (_nodes g) k ≠ [] →
                 k ∈ _visited_nodes g')
         ∧ (∀ n, n ∈ _visited_nodes g' →
                 n ∈ _visited_nodes g ∨ n ∈ targets (_nodes g)
                 ∨ (n ∈ keys ∧ dict_item (_nodes g) n ≠ []))).
Proof.
  induction keys as [|node keys IH]; intros g.
  - exists (Ret tt), g. simpl.
    split_and!; [done|apply store_rel_refl|done|done|].
    intros _ _ _. split_and!; [done|done| |by left].
    intros k Hk. by apply elem_of_nil in Hk.
  - rewrite cc_loop_cons.
    set (g1 := nodes_touch node g).
    assert (Hg1 : trav_rel g g1) by apply trav_rel_touch.
    assert (∃ g2,
      (if _has_traversable_neighbours (nodes_item g node)
          && bool_decide (node ∉ _visited_nodes g1)
       then _dfs (dfs_budget g1) node PyNone g1 else Some g1) = Some g2
      ∧ store_rel g1 g2
      ∧ _fifo_queue g2 = _fifo_queue g1
      ∧ _visited_nodes g1 ⊆ _visited_nodes g2
      ∧ (dict_item (_nodes g) node ≠ [] → node ∈ _visited_nodes g2)
      ∧ (∀ n, n ∈ _visited_nodes g2 →
              n ∈ _visited_nodes g1 ∨ n ∈ targets (_nodes g1)
              ∨ (n = node ∧ dict_item (_nodes g) node ≠ []))
      ∧ (dict_contains (_nodes g1) node = true → closed (_nodes g1) →
         _nodes g2 = _nodes g1)) as (g2 & -> & Hst & Hq2 & Hsub & Hroot & Hnew & Hsame).
    { destruct (_has_traversable_neighbours (nodes_item g node)) eqn:Hh;
        cbn [andb]; [destruct (bool_decide (node ∉ _visited_nodes g1)) eqn:Hv|].
      - destruct (_dfs_terminates g1 node PyNone) as (g2 & -> & Hrel & Hq & Hn).
        apply _has_traversable_neighbours_spec in Hh.
        exists g2. split_and!; [done| |done| | | |done].
        + eapply store_rel_trans; [|by apply trav_store_rel].
          by apply store_rel_same_nodes.
        + destruct Hrel as [_ Hv' _ _ _ _]. simpl in Hv'.
          clear -Hv'. set_solver.
        + intros _. destruct Hrel as [_ Hv' _ _ _ _]. simpl in Hv'.
          clear -Hv'. set_solver.
        + intros n Hin. destruct Hrel as [_ _ Hn' _ _ _]. simpl in Hn'.
          apply Hn' in Hin. apply elem_of_union in Hin as [Hin|Hin]; [|auto].
          apply elem_of_union in Hin as [Hin|Hin]; [auto|].
          apply elem_of_singleton in Hin as ->. auto.
      - apply bool_decide_eq_false in Hv. apply dec_stable in Hv.
        exists g1. split_and!; [done|apply store_rel_refl|done|done|done| |done].
        intros n Hin. by left.
      - exists g1. split_and!; [done|apply store_rel_refl|done|done| | |done].
        + intros Hne. apply _has_traversable_neighbours_spec in Hne.
          unfold nodes_item in Hh. congruence.
        + intros n Hin. by left. }
    destruct (bool_decide (length (_nodes g2) ≠ size0)) eqn:Hsz.
    + eexists _, _. split_and!; [done| |by rewrite Hq2| |].
      * eapply store_rel_trans; [by apply trav_store_rel|done].
      * done.
      * intros Hcl Hkeys Hs. exfalso.
        apply bool_decide_eq_true in Hsz. apply Hsz.
        assert (dict_contains (_nodes g) node = true) as Hk
          by (apply Hkeys; left).
        assert (_nodes g1 = _nodes g) as Heq
          by (by apply dict_touch_present).
        rewrite Hsame; rewrite Heq; done.
    + destruct (IH g2) as (r & g' & -> & Hst' & Hq' & Hsub' & Hcond).
      exists r, g'. split_and!; [done| |by rewrite Hq', Hq2| |].
      * eapply store_rel_trans; [by apply trav_store_rel|].
        by eapply store_rel_trans.
      * etrans; [|exact Hsub']. done.
      * intros Hcl Hkeys Hs.
        assert (dict_contains (_nodes g) node = true) as Hk
          by (apply Hkeys; left).
        assert (_nodes g1 = _nodes g) as Heq1
          by (by apply dict_touch_present).
        assert (_nodes g2 = _nodes g) as Heq2
          by (rewrite Hsame; rewrite Heq1; done).
        destruct Hcond as (-> & Hn' & Hvis & Hnew').
        { by rewrite Heq2. }
        { intros k Hk'. rewrite Heq2. apply Hkeys. by right. }
        { by rewrite Heq2. }
        rewrite Heq2 in *. rewrite Heq1 in *.
        split_and!; [done|done| |].
        -- intros k Hk' Hne. apply elem_of_cons in Hk' as [->|Hk'].
           ++ apply Hsub'. by apply Hroot.
           ++ by apply Hvis.
        -- intros n Hin. destruct (Hnew' n Hin) as [H1|[H1|[H1 H2]]].
           ++ destruct (Hnew n H1) as [H3|[H3|[-> H3]]]; [auto|auto|].
              right. right. split; [left|done].
           ++ auto.
           ++ right. right. split; [by right|done].
Qed.

Lemma connected_components_returns (g : Graph) :
  ∃ r g', connected_components g = Some (r, g')
          ∧ store_rel g g'
          ∧ _fifo_queue g' = _fifo_queue g.
Proof.
  unfold connected_components.
  destruct (cc_loop_spec (length (_nodes g)) (_nodes g).*1 g)
    as (r & g' & -> & Hst & Hq & _).
  destruct r as [[]|e]; eexists _, _; (split_and!; [done| |done]); [|done].
  eapply store_rel_trans; [done|]. by apply store_rel_same_nodes.
Qed.

(** ** The cycle detector *)

Lemma elem_of_marked (visited : gmap Node bool) (n : Node) :
  n ∈ marked visited ↔ visited !! n = Some true.
Proof.
  unfold marked. rewrite elem_of_dom. unfold is_Some.
  setoid_rewrite map_lookup_filter_Some. simpl. split.
  - intros (b & Hl & ->). done.
  - intros Hl. by exists true.
Qed.

Lemma marked_insert (visited : gmap Node bool) (c : Node) :
  marked (<[c := true]> visited) = marked visited ∪ {[c]}.
Proof.
  apply set_eq. intros n.
  rewrite elem_of_union, elem_of_singleton, !elem_of_marked.
  destruct (decide (n = c)) as [->|Hne].
  - rewrite lookup_insert_eq. naive_solver.
  - rewrite lookup_insert_ne by done. naive_solver.
Qed.

Lemma detect_scan_cons rec (parent_node : Node) (edge : Edge)
    (edges : list Edge) (visited : gmap Node bool) :
  detect_scan rec parent_node (edge :: edges) visited =
  match visited !! edge.1 with
  | None => Some (Raise (KeyError edge.1), visited)
  | Some false =>
      match rec edge.1 visited with
      | None => None
      | Some (Raise e, visited) => Some (Raise e, visited)
      | Some (Ret true, visited) => Some (Ret true, visited)
      | Some (Ret false, visited) => detect_scan rec parent_node edges visited
      end
  | Some true =>
      if decide (parent_node ≠ edge.1) then Some (Ret true, visited)
      else detect_scan rec parent_node edges visited
  end.
Proof. reflexivity. Qed.

(** The loop of [_detect_cycles], given that the recursive calls behave.
    It always returns; when every neighbour is a key of [visited] and
    [None] is no neighbour, it raises nothing and explores as the design
    says. *)
Lemma detect_scan_spec (fuel : nat) (d : Dict) (c : Node) :
  (∀ nb vis,
     pending (marked vis ∪ {[nb]}) (dict_entries d) < fuel →
     ∃ r vis',
       _detect_cycles fuel d nb vis c = Some (r, vis')
       ∧ marked vis ∪ {[nb]} ⊆ marked vis'
       ∧ (targets d ⊆ dom vis → PyNone ∉ targets d → nb ∈ dom vis →
          ∃ b, r = Ret b ∧ dom vis' = dom vis
               ∧ Explore d (marked vis ∪ {[nb]}) nb (Some c)
                   (dict_item d nb) (marked vis') b)) →
  ∀ (es : list Edge) (vis : gmap Node bool) (p : Node) (p' : option Node),
    (∀ e, e ∈ es → e ∈ dict_entries d) →
    pending (marked vis) (dict_entries d) ≤ fuel →
    ∃ r vis',
      detect_scan (λ nb vis, _detect_cycles fuel d nb vis c) p es vis
      = Some (r, vis')
      ∧ marked vis ⊆ marked vis'
      ∧ (targets d ⊆ dom vis → PyNone ∉ targets d → parent_repr p p' →
         ∃ b, r = Ret b ∧ dom vis' = dom vis
              ∧ Explore d (marked vis) c p' es (marked vis') b).
Proof.
  intros Hrec es. induction es as [|e es IH]; intros vis p p' Hes Hfuel.
  - exists (Ret false), vis. simpl. split_and!; [done|done|].
    intros _ _ _. exists false. split_and!; [done|done|constructor].
  - assert (He : e ∈ dict_entries d) by (apply Hes; left).
    assert (Ht : e.1 ∈ targets d).
    { apply targets_spec. exists e.2. by destruct e. }
    assert (Hes' : ∀ e', e' ∈ es → e' ∈ dict_entries d)
      by (intros e' He'; apply Hes; by right).
    rewrite detect_scan_cons.
    destruct (vis !! e.1) as [[|]|] eqn:Hl.
    + (* the neighbour is visited *)
      assert (Hm : e.1 ∈ marked vis) by (by apply elem_of_marked).
      destruct (decide (p ≠ e.1)) as [Hp|Hp].
      * exists (Ret true), vis. split_and!; [done|done|].
        intros _ _ Hrepr. exists true. split_and!; [done|done|].
        destruct e as [nb w]. simpl in *.
        apply explore_back_edge; [done|].
        destruct Hrepr as [->|[-> _]]; congruence.
      * apply dec_stable in Hp.
        destruct (IH vis p p' Hes' Hfuel) as (r & vis' & Hscan & Hsub & Hcond).
        exists r, vis'. split_and!; [done|done|].
        intros Hdom Hnone Hrepr.
        destruct (Hcond Hdom Hnone Hrepr) as (b & -> & Hd & Hex).
        exists b. split_and!; [done|done|].
        destruct e as [nb w]. simpl in *.
        apply explore_parent; [done| |done].
        destruct Hrepr as [->|[_ ->]]; [congruence|].
        exfalso. apply Hnone. by rewrite Hp.
    + (* the neighbour is unvisited: descend *)
      assert (Hm : e.1 ∉ marked vis).
      { rewrite elem_of_marked. congruence. }
      destruct (Hrec e.1 vis) as (r1 & vis1 & -> & Hsub1 & Hcond1).
      { eapply Nat.lt_le_trans; [|exact Hfuel].
        apply pending_lt; [done|]. apply list_elem_of_fmap. by exists e. }
      assert (Hin : e.1 ∈ dom vis) by (apply elem_of_dom; by eexists).
      destruct r1 as [[|]|err].
      * exists (Ret true), vis1. split_and!; [done| |].
        -- clear -Hsub1. set_solver.
        -- intros Hdom Hnone Hrepr.
           destruct (Hcond1 Hdom Hnone Hin) as (b & Hb & Hd & Hex).
           injection Hb as <-.
           exists true. split_and!; [done|done|].
           destruct e as [nb w]. simpl in *.
           by apply explore_descend_cycle.
      * destruct (IH vis1 p p' Hes') as (r & vis' & Hscan & Hsub & Hcond).
        { etrans; [|exact Hfuel]. apply pending_mono.
          clear -Hsub1. set_solver. }
        exists r, vis'. split_and!; [done| |].
        -- clear -Hsub1 Hsub. set_solver.
        -- intros Hdom Hnone Hrepr.
           destruct (Hcond1 Hdom Hnone Hin) as (b1 & Hb & Hd & Hex).
           injection Hb as <-.
           destruct Hcond as (b & -> & Hd' & Hex'); [by rewrite Hd|done|done|].
           exists b. split_and!; [done|congruence|].
           destruct e as [nb w]. simpl in *.
           by eapply explore_descend.
      * exists (Raise err), vis1. split_and!; [done| |].
        -- clear -Hsub1. set_solver.
        -- intros Hdom Hnone Hrepr.
           destruct (Hcond1 Hdom Hnone Hin) as (b & Hb & _). done.
    + (* the neighbour is no key of [visited] *)
      exists (Raise (KeyError e.1)), vis. split_and!; [done|done|].
      intros Hdom _ _. exfalso.
      apply Hdom in Ht. apply elem_of_dom in Ht as [? ?]. congruence.
Qed.

Lemma _detect_cycles_spec (fuel : nat) (d : Dict) :
  ∀ (c : Node) (vis : gmap Node bool) (p : Node) (p' : option Node),
    pending (marked vis ∪ {[c]}) (dict_entries d) < fuel →
    ∃ r vis',
      _detect_cycles fuel d c vis p = Some (r, vis')
      ∧ marked vis ∪ {[c]} ⊆ marked vis'
      ∧ (targets d ⊆ dom vis → PyNone ∉ targets d → c ∈ dom vis →
         parent_repr p p' →
         ∃ b, r = Ret b ∧ dom vis' = dom vis
              ∧ Explore d (marked vis ∪ {[c]}) c p'
                  (dict_item d c) (marked vis') b).
Proof.
  induction fuel as [|fuel IH]; intros c vis p p' Hfuel; [lia|].
  simpl.
  assert (Hdom : c ∈ dom vis → dom (<[c := true]> vis) = dom vis).
  { intros Hc. rewrite dom_insert_L. clear -Hc. set_solver. }
  destruct (detect_scan_spec fuel d c) with
    (es := dict_item d c) (vis := <[c := true]> vis) (p := p) (p' := p')
    as (r & vis' & Hscan & Hsub & Hcond).
  - intros nb vis0 Hlt.
    destruct (IH nb vis0 c (Some c) Hlt) as (r & vis' & Hr & Hsub & Hcond).
    exists r, vis'. split_and!; [done|done|].
    intros H1 H2 H3. apply Hcond; [done|done|done|by left].
  - intros e He. by eapply dict_item_entries.
  - rewrite marked_insert. lia.
  - exists r, vis'. rewrite marked_insert in *. split_and!; [done|done|].
    intros Hd Hnone Hc Hrepr.
    destruct Hcond as (b & -> & Hd' & Hex); [by rewrite Hdom|done|done|].
    exists b. split_and!; [done| |done]. rewrite Hd'. by apply Hdom.
Qed.

Lemma is_cyclic_loop_spec (fuel : nat) (d : Dict) :
  length (dict_entries d) < fuel →
  ∀ (keys : list Node) (vis : gmap Node bool),
    ∃ r, is_cyclic_loop fuel d keys vis = Some r
         ∧ (targets d ⊆ dom vis → PyNone ∉ targets d →
            (∀ k, k ∈ keys → k ∈ dom vis) →
            ∃ b, r = Ret b ∧ ExploreRoots d (marked vis) keys b).
Proof.
  intros Hfuel keys. induction keys as [|node keys IH]; intros vis.
  - exists (Ret false). split; [done|]. intros _ _ _.
    exists false. split; [done|constructor].
  - cbn [is_cyclic_loop].
    destruct (vis !! node) as [[|]|] eqn:Hl.
    + destruct (IH vis) as (r & -> & Hcond). exists r. split; [done|].
      intros Hdom Hnone Hkeys.
      destruct (Hcond Hdom Hnone) as (b & -> & Hex).
      { intros k Hk. apply Hkeys. by right. }
      exists b. split; [done|].
      apply roots_visited; [by apply elem_of_marked|done].
    + assert (Hm : node ∉ marked vis).
      { rewrite elem_of_marked. congruence. }
      destruct (_detect_cycles_spec fuel d node vis PyNone None)
        as (r1 & vis1 & -> & Hsub1 & Hcond1).
      { pose proof (pending_le_length (marked vis ∪ {[node]})
                      (dict_entries d)). lia. }
      assert (Hin : node ∈ dom vis) by (apply elem_of_dom; by eexists).
      destruct r1 as [[|]|err].
      * exists (Ret true). split; [done|]. intros Hdom Hnone Hkeys.
        destruct (Hcond1 Hdom Hnone Hin) as (b & Hb & Hd & Hex);
          [by right|].
        injection Hb as <-. exists true. split; [done|].
        by eapply roots_cycle.
      * destruct (IH vis1) as (r & -> & Hcond). exists r. split; [done|].
        intros Hdom Hnone Hkeys.
        destruct (Hcond1 Hdom Hnone Hin) as (b1 & Hb & Hd & Hex);
          [by right|].
        injection Hb as <-.
        destruct Hcond as (b & -> & Hex'); [by rewrite Hd|done| |].
        { intros k Hk. rewrite Hd. apply Hkeys. by right. }
        exists b. split; [done|]. by eapply roots_next.
      * exists (Raise err). split; [done|]. intros Hdom Hnone Hkeys.
        destruct (Hcond1 Hdom Hnone Hin) as (b & Hb & _); [by right|done].
    + exists (Raise (KeyError node)). split; [done|].
      intros _ _ Hkeys. exfalso.
      assert (node ∈ dom vis) as Hin by (apply Hkeys; left).
      apply elem_of_dom in Hin as [? ?]. congruence.
Qed.

(** The exploration of the design is deterministic. *)
Lemma Explore_det (d : Dict) v c p es v1 b1 :
  Explore d v c p es v1 b1 →
  ∀ v2 b2, Explore d v c p es v2 b2 → v1 = v2 ∧ b1 = b2.
Proof.
  induction 1 as [v c p|v c p nb w es Hin Hp|v c p nb w es v' b Hin Hp _ IH
                 |v c p nb w es v' Hnin _ IH
                 |v c p nb w es v' v'' b Hnin _ IH1 _ IH2];
    intros v2 b2 H2; inversion H2; subst; try done; try congruence.
  - by apply IH.
  - by apply IH.
  - match goal with H : Explore _ _ nb _ _ _ false |- _ =>
      apply IH in H as [_ ?]; done end.
  - match goal with H : Explore _ _ nb _ _ _ true |- _ =>
      apply IH1 in H as [_ ?]; done end.
  - match goal with H : Explore _ _ nb _ _ _ false |- _ =>
      apply IH1 in H as [-> _] end.
    by apply IH2.
Qed.

Lemma ExploreRoots_det (d : Dict) v roots b1 :
  ExploreRoots d v roots b1 → ∀ b2, ExploreRoots d v roots b2 → b1 = b2.
Proof.
  induction 1 as [v|v n ns b Hin _ IH|v n ns v' Hnin Hex
                 |v n ns v' b Hnin Hex _ IH];
    intros b2 H2; inversion H2; subst; try done.
  - by apply IH.
  - match goal with H : Explore _ _ n _ _ _ false |- _ =>
      destruct (Explore_det _ _ _ _ _ _ _ Hex _ _ H) as [_ ?]; done end.
  - match goal with H : Explore _ _ n _ _ _ true |- _ =>
      destruct (Explore_det _ _ _ _ _ _ _ Hex _ _ H) as [_ ?]; done end.
  - match goal with H : Explore _ _ n _ _ _ false |- _ =>
      destruct (Explore_det _ _ _ _ _ _ _ Hex _ _ H) as [-> _] end.
    by apply IH.
Qed.

Lemma is_cyclic_visited_init (keys : list Node) :
  let visited : gmap Node bool :=
    list_to_map ((λ node, (node, false)) <$> keys) in
  dom visited = list_to_set keys ∧ marked visited = ∅.
Proof.
  simpl. split.
  - rewrite dom_list_to_map_L. f_equal.
    rewrite <- list_fmap_compose. simpl. apply list_fmap_id.
  - apply set_eq. intros n. rewrite elem_of_marked. split.
    + intros Hl. apply elem_of_list_to_map_2 in Hl.
      apply list_elem_of_fmap in Hl as (k & Heq & _). done.
    + intros Hn. by apply not_elem_of_empty in Hn.
Qed.

Lemma is_cyclic_returns (g : Graph) : ∃ r, is_cyclic g = Some r.
Proof.
  unfold is_cyclic.
  destruct (is_cyclic_loop_spec (S (length (dict_entries (_nodes g))))
              (_nodes g) ltac:(lia) (_nodes g).*1
              (list_to_map ((λ node, (node, false)) <$> (_nodes g).*1)))
    as (r & Hr & _).
  by exists r.
Qed.

(** ** Insertion of nodes and edges *)

Lemma dict_append_keys (d : Dict) (k : Node) (e : Edge) :
  (dict_append d k e).*1 = (dict_touch d k).*1.
Proof.
  unfold dict_touch, dict_contains.
  induction d as [|[k0 l] d IH]; simpl; [done|].
  destruct (decide (k = k0)) as [->|Hne]; simpl; [done|].
  fold (fmap (M:=list) (@fst Node (list Edge)) (dict_append d k e)). rewrite IH. by destruct (dict_get d k).
Qed.

Lemma dict_append_NoDup (d : Dict) (k : Node) (e : Edge) :
  NoDup d.*1 → NoDup (dict_append d k e).*1.
Proof. rewrite dict_append_keys. apply dict_touch_NoDup. Qed.

(** The lists after the two appends of [UndirectedGraph._add_edge]. *)
Lemma dict_item_add_edge (d : Dict) (u v : Node) (w : Weight) (k : Node) :
  dict_item (dict_append (dict_append d u (v, w)) v (u, w)) k =
  dict_item d k ++ (if decide (k = u) then [(v, w)] else [])
                ++ (if decide (k = v) then [(u, w)] else []).
Proof.
  rewrite dict_item_append.
  destruct (decide (k = v)) as [->|Hv].
  - rewrite dict_item_append.
    destruct (decide (v = u)) as [->|Hu]; [by rewrite <- app_assoc|done].
  - rewrite dict_item_append.
    destruct (decide (k = u)) as [->|Hu]; simpl; [done|].
    by rewrite app_nil_r.
Qed.

Lemma add_edge_symmetric (d : Dict) (u v : Node) (w : Weight) :
  symmetric d →
  symmetric (dict_append (dict_append d u (v, w)) v (u, w)).
Proof.
  intros Hsym a b w0. rewrite !dict_item_add_edge.
  rewrite !elem_of_app. intros [Hold|[Hnew|Hnew]].
  - left. by apply Hsym.
  - destruct (decide (a = u)) as [->|?]; [|by apply elem_of_nil in Hnew].
    apply list_elem_of_singleton in Hnew. injection Hnew as -> ->.
    right. right. rewrite decide_True by done. by apply list_elem_of_singleton.
  - destruct (decide (a = v)) as [->|?]; [|by apply elem_of_nil in Hnew].
    apply list_elem_of_singleton in Hnew. injection Hnew as -> ->.
    right. left. rewrite decide_True by done. by apply list_elem_of_singleton.
Qed.

Lemma add_node_item (g : Graph) (node k : Node) :
  dict_item (_nodes (add_node g node)) k = dict_item (_nodes g) k.
Proof.
  unfold add_node.
  destruct (dict_contains (_nodes g) node) eqn:Hc; simpl; [done|].
  change (_nodes g ++ [(node, [])]) with
    (if false then _nodes g else _nodes g ++ [(node, [])]).
  rewrite <- Hc. apply dict_item_touch.
Qed.

Lemma add_node_touch (g : Graph) (node : Node) :
  _nodes (add_node g node) = dict_touch (_nodes g) node.
Proof.
  unfold add_node, dict_touch.
  by destruct (dict_contains (_nodes g) node).
Qed.

(** What [UndirectedGraph._add_edge] does: it raises and changes nothing, or
    it extends the two lists. *)
Lemma UndirectedGraph_add_edge_spec (g : Graph) (u v : Node) (w : Weight) :
  (∃ n, UndirectedGraph_add_edge g u v w = (Raise (ValueError n), g)
        ∧ _validate_nodes g u v = Raise (ValueError n))
  ∨ (∃ g', UndirectedGraph_add_edge g u v w = (Ret tt, g')
           ∧ _validate_nodes g u v = Ret tt
           ∧ g' = set_nodes
                    (dict_append (dict_append (_nodes g) u (v, w)) v (u, w)) g).
Proof.
  unfold UndirectedGraph_add_edge.
  destruct (_validate_nodes_cases g u v) as [->|[n ->]].
  - right. eexists. split_and!; [done|done|]. by destruct g.
  - left. by exists n.
Qed.

(** The soundness of the check [symmetricb]. *)
Lemma dict_get_elem (d : Dict) (k : Node) (l : list Edge) :
  dict_get d k = Some l → (k, l) ∈ d.
Proof.
  induction d as [|[k0 l0] d IH]; simpl; [done|].
  destruct (decide (k = k0)) as [->|Hne].
  - intros [= ->]. left.
  - intros Hl. right. by apply IH.
Qed.

Lemma symmetricb_sound (d : Dict) : symmetricb d = true → symmetric d.
Proof.
  unfold symmetricb, symmetric. intros Hb u v w Hin.
  unfold dict_item in Hin at 1.
  destruct (dict_get d u) as [l|] eqn:Hl; simpl in Hin;
    [|by apply elem_of_nil in Hin].
  apply dict_get_elem in Hl.
  apply Is_true_true_2, forallb_True in Hb.
  rewrite Forall_forall in Hb. specialize (Hb _ Hl). simpl in Hb.
  apply forallb_True in Hb. rewrite Forall_forall in Hb.
  specialize (Hb _ Hin). simpl in Hb. by apply bool_decide_unpack in Hb.
Qed.

(** ** Every call returns, and the edge lists only grow *)

Lemma exec_spec (op : Op) (g : Graph) :
  ∃ g', exec op g = Some g'
        ∧ cls g' = cls g
        ∧ (∀ k, dict_item (_nodes g) k `prefix_of` dict_item (_nodes g') k)
        ∧ (symmetric (_nodes g) → symmetric (_nodes g'))
        ∧ (NoDup (_nodes g).*1 → NoDup (_nodes g').*1).
Proof.
  assert (Hstore : ∀ g', store_rel g g' →
            cls g' = cls g
            ∧ (∀ k, dict_item (_nodes g) k `prefix_of` dict_item (_nodes g') k)
            ∧ (symmetric (_nodes g) → symmetric (_nodes g'))
            ∧ (NoDup (_nodes g).*1 → NoDup (_nodes g').*1)).
  { intros g' [Hc _ Hi Hk]. split_and!; [done| | |done].
    - intros k. by rewrite Hi.
    - intros Hsym u v w. rewrite !Hi. apply Hsym. }
  destruct op as [node|u v w|s e|s e| |]; simpl.
  - exists (add_node g node). split; [done|]. apply Hstore.
    split.
    + unfold add_node. by destruct (negb _).
    + rewrite add_node_touch. apply dict_entries_touch.
    + apply add_node_item.
    + rewrite add_node_touch. apply dict_touch_NoDup.
  - eexists. split; [done|]. unfold add_edge, _add_edge.
    destruct (cls g) eqn:Hcls; [by apply Hstore, store_rel_refl|].
    destruct (UndirectedGraph_add_edge_spec g u v w)
      as [(n & -> & _)|(g' & -> & _ & ->)]; simpl.
    + by apply Hstore, store_rel_refl.
    + split_and!; [done| | |].
      * intros k. rewrite dict_item_add_edge. by apply prefix_app_r.
      * apply add_edge_symmetric.
      * intros Hnd. by do 2 apply dict_append_NoDup.
  - destruct (find_path_returns g s e) as (r & g' & -> & Hst & _).
    exists g'. split; [done|]. by apply Hstore.
  - destruct (find_shortest_path_returns g s e) as (r & g' & -> & Hst & _).
    exists g'. split; [done|]. by apply Hstore.
  - destruct (connected_components_returns g) as (r & g' & -> & Hst & _).
    exists g'. split; [done|]. by apply Hstore.
  - destruct (is_cyclic_returns g) as (r & ->).
    exists g. split; [done|]. by apply Hstore, store_rel_refl.
Qed.

(** ** What the queries leave behind *)

Lemma find_path_clears (g g' : Graph) (start_node end_node : Node)
    (path : option (list Node)) :
  find_path g start_node end_node = Some (Ret path, g') →
  clean g' ∧ _has_path g' = false ∧ _fifo_queue g' = _fifo_queue g.
Proof.
  unfold find_path.
  destruct (_validate_nodes_cases g start_node end_node) as [->|[n ->]];
    [|done].
  destruct (_dfs_terminates g start_node end_node) as (g1 & -> & _ & Hq & _).
  destruct (take_path_spec g1) as (_ & _ & _ & Hq' & Hp & Hclean).
  destruct (take_path g1) as [path1 g2]. cbn [fst snd] in *.
  intros [= <- <-]. split_and!; [done|done|congruence].
Qed.

Lemma find_shortest_path_clears (g g' : Graph) (start_node end_node : Node)
    (path : option (list Node)) :
  find_shortest_path g start_node end_node = Some (Ret path, g') →
  clean g' ∧ _has_path g' = false.
Proof.
  unfold find_shortest_path, _bfs.
  destruct (_validate_nodes_cases g start_node end_node) as [->|[n ->]];
    [|done].
  destruct (bfs_loop _ _ _) as [g1|]; [|done].
  destruct (take_path_spec g1) as (_ & _ & _ & _ & Hp & Hclean).
  destruct (take_path g1) as [path1 g2]. cbn [fst snd] in *.
  by intros [= <- <-].
Qed.

(** On a closed storage [connected_components] raises nothing, keeps the
    storage and leaves no traversal state. *)
Lemma connected_components_closed (g : Graph) :
  closed (_nodes g) →
  ∃ comps g', connected_components g = Some (Ret comps, g')
              ∧ _nodes g' = _nodes g ∧ clean g'.
Proof.
  intros Hcl. unfold connected_components.
  destruct (cc_loop_spec (length (_nodes g)) (_nodes g).*1 g)
    as (r & g' & -> & _ & _ & _ & Hcond).
  destruct Hcond as (-> & Hn & _); [done| |done|].
  { intros k Hk. by apply dict_contains_elem. }
  by eexists _, _.
Qed.

(** The state between two public calls: unique keys, symmetric lists, no
    traversal state. *)
Lemma exec_clean (op : Op) (g g' : Graph) :
  NoDup (_nodes g).*1 → symmetric (_nodes g) → clean g →
  exec op g = Some g' → clean g'.
Proof.
  intros Hnd Hsym Hclean.
  destruct op as [node|u v w|s e|s e| |]; simpl.
  - intros [= <-]. unfold add_node. by destruct (negb _).
  - intros [= <-]. unfold add_edge, _add_edge.
    destruct (cls g); [done|].
    by destruct (UndirectedGraph_add_edge_spec g u v w)
      as [(n & -> & _)|(g1 & -> & _ & ->)].
  - destruct (find_path_returns g s e) as (r & g1 & -> & _ & _ & Hc).
    intros [= <-]. by apply Hc.
  - destruct (find_shortest_path_returns g s e) as (r & g1 & -> & _ & Hc).
    intros [= <-]. by apply Hc.
  - destruct (connected_components_closed g) as (comps & g1 & -> & _ & Hc);
      [by apply symmetric_closed|].
    by intros [= <-].
  - destruct (is_cyclic_returns g) as (r & ->). by intros [= <-].
Qed.

Lemma reachable_inv (g : Graph) :
  reachable g → NoDup (_nodes g).*1 ∧ symmetric (_nodes g) ∧ clean g.
Proof.
  induction 1 as [c q|op g g' _ (Hnd & Hsym & Hclean) Hex].
  - split_and!; [constructor| |done].
    intros u v w Hin. by apply elem_of_nil in Hin.
  - destruct (exec_spec op g) as (g1 & Hex1 & _ & _ & Hs & Hk).
    rewrite Hex in Hex1. injection Hex1 as <-.
    split_and!; [by apply Hk|by apply Hs|by eapply exec_clean].
Qed.

(** Every call returns on every object. *)
Lemma exec_total (op : Op) (g : Graph) : is_Some (exec op g).
Proof. destruct (exec_spec op g) as (g' & -> & _). by eexists. Qed.

(** ** The order recorded by depth-first search *)

Lemma dfs_loop_order (fuel : nat) (end_node : Node) :
  (∀ node g g',
     _dfs fuel node end_node g = Some g' →
     ∃ l, _traversal_order g' = _traversal_order g ++ node :: l
          ∧ (_has_path g' = true →
             _has_path g = true ∨ end_node ∈ node :: l)) →
  ∀ (es : list Edge) (g g' : Graph),
    for_each
      (λ edge g,
         let neighbour_node := edge_key edge in
         if decide (neighbour_node ∈ _visited_nodes g) then Some g
         else _dfs fuel neighbour_node end_node g) es g = Some g' →
    ∃ l, _traversal_order g' = _traversal_order g ++ l
         ∧ (_has_path g' = true → _has_path g = true ∨ end_node ∈ l).
Proof.
  intros Hrec es. induction es as [|e es IH]; intros g g'; simpl.
  - intros [= <-]. exists []. rewrite app_nil_r. split; [done|by left].
  - destruct (decide (edge_key e ∈ _visited_nodes g)); [by apply IH|].
    destruct (_dfs fuel (edge_key e) end_node g) as [g1|] eqn:Hdfs; [|done].
    intros Hloop.
    destruct (Hrec _ _ _ Hdfs) as (l1 & Ho1 & Hp1).
    destruct (IH _ _ Hloop) as (l2 & Ho2 & Hp2).
    exists ((edge_key e :: l1) ++ l2). split.
    + rewrite Ho2, Ho1. by rewrite <- app_assoc.
    + intros Hp. rewrite elem_of_app.
      destruct (Hp2 Hp) as [Hp'|?]; [|by auto].
      destruct (Hp1 Hp') as [?|?]; auto.
Qed.

Lemma _dfs_order (fuel : nat) (end_node : Node) :
  ∀ node g g',
    _dfs fuel node end_node g = Some g' →
    ∃ l, _traversal_order g' = _traversal_order g ++ node :: l
         ∧ (_has_path g' = true →
            _has_path g = true ∨ end_node ∈ node :: l).
Proof.
  induction fuel as [|fuel IH]; intros node g g'; simpl; [done|].
  destruct (decide (node = end_node)) as [->|Hne].
  - intros [= <-]. exists []. split; [done|]. intros _. right. left.
  - intros Hloop.
    destruct (dfs_loop_order fuel end_node IH _ _ _ Hloop) as (l & Ho & Hp).
    exists l. simpl in Ho, Hp. split.
    + by rewrite Ho, <- app_assoc.
    + intros Hp'. destruct (Hp Hp') as [?|?]; [by left|]. right. by right.
Qed.

(** A sequence returned by [find_path] on an object without traversal
    state starts at the start node and contains the end node. *)
Lemma find_path_endpoints (g g' : Graph) (start_node end_node : Node)
    (path : list Node) :
  clean g → _has_path g = false →
  find_path g start_node end_node = Some (Ret (Some path), g') →
  (∃ l, path = start_node :: l) ∧ end_node ∈ path.
Proof.
  intros [_ Horder] Hflag. unfold find_path.
  destruct (_validate_nodes_cases g start_node end_node) as [->|[n ->]];
    [|done].
  destruct (_dfs (dfs_budget g) start_node end_node g) as [g1|] eqn:Hdfs;
    [|done].
  destruct (_dfs_order _ _ _ _ _ Hdfs) as (l & Ho & Hp).
  rewrite Horder in Ho. simpl in Ho.
  unfold take_path. destruct (_has_path g1) eqn:Hp1; [|done].
  intros [= <- <-]. rewrite Ho. split; [by exists l|].
  destruct (Hp eq_refl) as [?|?]; [congruence|done].
Qed.

(** ** Breadth-first against depth-first search *)

Lemma bfs_edges_reach (d : Dict) (e s : Node) (es : list Edge) :
  ∀ g : Graph,
    bfs_inv d e s g →
    (∀ ed, ed ∈ es → reach d e s ed.1) →
    bfs_inv d e s (foldl bfs_visit_edge g es).
Proof.
  induction es as [|ed es IH]; intros g Hinv Hes; simpl; [done|].
  apply IH; [|intros ed' Hed'; apply Hes; by right].
  unfold bfs_visit_edge, edge_key.
  destruct (decide (ed.1 ∈ _visited_nodes g)) as [Hin|Hnin]; [done|].
  assert (Hr : reach d e s ed.1) by (apply Hes; left).
  destruct Hinv as (Hv & Hq & Hnd & Ho & Hi).
  split_and!; simpl.
  - intros n Hn. apply elem_of_union in Hn as [Hn|Hn]; [by apply Hv|].
    by apply elem_of_singleton in Hn as ->.
  - intros n Hn. unfold enqueue in Hn.
    apply elem_of_app in Hn as [Hn|Hn]; [by apply Hq|].
    by apply list_elem_of_singleton in Hn as ->.
  - apply NoDup_app. split_and!; [done| |apply NoDup_singleton].
    intros n Hn Hn'. apply list_elem_of_singleton in Hn' as ->.
    by apply Ho in Hn.
  - intros n. rewrite elem_of_app, elem_of_union, list_elem_of_singleton,
      elem_of_singleton, Ho. done.
  - done.
Qed.

Lemma bfs_loop_reach (d : Dict) (e s : Node) (fuel : nat) :
  ∀ g g' : Graph,
    bfs_inv d e s g →
    bfs_loop fuel e g = Some g' →
    (∀ n, n ∈ _visited_nodes g' → reach d e s n)
    ∧ NoDup (_traversal_order g')
    ∧ (∀ n, n ∈ _traversal_order g' ↔ n ∈ _visited_nodes g').
Proof.
  induction fuel as [|fuel IH]; intros g g' Hinv; simpl; [done|].
  destruct Hinv as (Hv & Hq & Hnd & Ho & Hi).
  destruct (_fifo_queue g) as [|current q] eqn:Hqueue; simpl.
  - by intros [= <-].
  - destruct (decide (current = e)) as [->|Hne].
    + by intros [= <-].
    + apply IH. apply bfs_edges_reach.
      * split_and!; simpl; [done| |done|done|].
        -- intros n Hn. apply Hq. by right.
        -- intros k. by rewrite dict_item_touch.
      * intros ed Hed. unfold nodes_item in Hed. simpl in Hed.
        rewrite Hi in Hed. destruct ed as [v w].
        eapply reach_step; [|exact Hne|exact Hed]. apply Hq. left.
Qed.

Lemma dfs_adds_trans (e : Node) (g1 g2 g3 : Graph) (l1 l2 : list Node) :
  dfs_adds e g1 g2 l1 → dfs_adds e g2 g3 l2 → dfs_adds e g1 g3 (l1 ++ l2).
Proof.
  intros (Ho1 & Hnd1 & Hl1 & Hv1 & Hi1 & Hc1) (Ho2 & Hnd2 & Hl2 & Hv2 & Hi2 & Hc2).
  split_and!.
  - by rewrite Ho2, Ho1, app_assoc.
  - apply NoDup_app. split_and!; [done| |done].
    intros n Hn1 Hn2. apply Hl1 in Hn1 as [Hn1 _]. apply Hl2 in Hn2 as [_ Hn2].
    done.
  - intros n. rewrite elem_of_app, Hl1, Hl2. split.
    + intros [[H1 H2]|[H1 H2]].
      * split; [by apply Hv2|done].
      * split; [done|]. intros H3. apply H2. by apply Hv1.
    + intros [H1 H2].
      destruct (decide (n ∈ _visited_nodes g2)); [by left|by right].
  - by etrans.
  - intros k. by rewrite Hi2.
  - intros u Hu Hne v w Hin. apply elem_of_app in Hu as [Hu|Hu].
    + apply Hv2. by eapply Hc1.
    + eapply Hc2; [done|done|]. rewrite Hi1. exact Hin.
Qed.

Lemma dfs_loop_adds (fuel : nat) (e : Node) :
  (∀ node g g',
     node ∉ _visited_nodes g →
     _dfs fuel node e g = Some g' →
     ∃ l, dfs_adds e g g' l ∧ node ∈ l) →
  ∀ (es : list Edge) (g g' : Graph),
    for_each
      (λ edge g,
         let neighbour_node := edge_key edge in
         if decide (neighbour_node ∈ _visited_nodes g) then Some g
         else _dfs fuel neighbour_node e g) es g = Some g' →
    ∃ l, dfs_adds e g g' l ∧ ∀ ed, ed ∈ es → ed.1 ∈ _visited_nodes g'.
Proof.
  intros Hrec es. induction es as [|ed es IH]; intros g g'; simpl.
  - intros [= <-]. exists []. split.
    + split_and!; [by rewrite app_nil_r|constructor| |done|done|].
      * intros n. split; [intros Hn; by apply elem_of_nil in Hn|].
        by intros [? ?].
      * intros u Hu. by apply elem_of_nil in Hu.
    + intros ed Hed. by apply elem_of_nil in Hed.
  - unfold edge_key at 1.
    destruct (decide (ed.1 ∈ _visited_nodes g)) as [Hin|Hnin].
    + intros Hloop. destruct (IH _ _ Hloop) as (l & Hadds & Hes).
      exists l. split; [done|]. intros ed' Hed'.
      apply elem_of_cons in Hed' as [->|Hed']; [|by apply Hes].
      destruct Hadds as (_ & _ & _ & Hv & _). by apply Hv.
    + unfold edge_key at 1.
      destruct (_dfs fuel ed.1 e g) as [g1|] eqn:Hdfs; [|done].
      intros Hloop.
      destruct (Hrec _ _ _ Hnin Hdfs) as (l1 & Hadds1 & Hin1).
      destruct (IH _ _ Hloop) as (l2 & Hadds2 & Hes).
      exists (l1 ++ l2). split; [by eapply dfs_adds_trans|].
      intros ed' Hed'.
      apply elem_of_cons in Hed' as [->|Hed']; [|by apply Hes].
      destruct Hadds2 as (_ & _ & _ & Hv & _). apply Hv.
      destruct Hadds1 as (_ & _ & Hl & _). by apply Hl in Hin1 as [? _].
Qed.

Lemma _dfs_adds (fuel : nat) (e : Node) :
  ∀ node g g',
    node ∉ _visited_nodes g →
    _dfs fuel node e g = Some g' →
    ∃ l, dfs_adds e g g' l ∧ node ∈ l.
Proof.
  induction fuel as [|fuel IH]; intros node g g' Hnode; simpl; [done|].
  destruct (decide (node = e)) as [->|Hne].
  - intros [= <-]. exists [e]. split; [|left].
    split_and!; simpl; [done|apply NoDup_singleton| |set_solver|done|].
    + intros n. rewrite list_elem_of_singleton. clear -Hnode. set_solver.
    + intros u Hu. by apply list_elem_of_singleton in Hu.
  - intros Hloop.
    destruct (dfs_loop_adds fuel e IH _ _ _ Hloop)
      as (l & (Ho & Hnd & Hl & Hv & Hi & Hc) & Hes).
    simpl in Ho, Hl, Hv, Hi, Hc.
    assert (Hitem : ∀ k, dict_item (_nodes g') k = dict_item (_nodes g) k).
    { intros k. by rewrite Hi, dict_item_touch. }
    exists (node :: l). split; [|left].
    split_and!.
    + by rewrite Ho, <- app_assoc.
    + apply NoDup_cons. split; [|done].
      intros Hin. apply Hl in Hin as [_ Hin]. clear -Hin. set_solver.
    + intros n. rewrite elem_of_cons, Hl.
      clear -Hv Hnode. destruct (decide (n = node)) as [->|?]; set_solver.
    + clear -Hv. set_solver.
    + done.
    + intros u Hu Hue v w Hin. apply elem_of_cons in Hu as [->|Hu].
      * apply (Hes (v, w)). unfold nodes_item. simpl. exact Hin.
      * eapply Hc; [done|done|]. by rewrite dict_item_touch.
Qed.

(** X10.  On an object that holds no traversal state and whose queue is
    empty, the sequence returned by [find_shortest_path] is never longer
    than the one returned by [find_path] for the same start and end node. *)
Lemma bfs_not_longer_than_dfs (g gd gb : Graph) (start_node end_node : Node)
    (pd pb : list Node) :
  clean g → _fifo_queue g = [] →
  find_path g start_node end_node = Some (Ret (Some pd), gd) →
  find_shortest_path g start_node end_node = Some (Ret (Some pb), gb) →
  length pb ≤ length pd.
Proof.
  intros [Hvis Horder] Hqueue. unfold find_path, find_shortest_path, _bfs.
  destruct (_validate_nodes_cases g start_node end_node) as [->|[n ->]];
    [|done].
  destruct (_dfs _ _ _ g) as [g1|] eqn:Hdfs; [|done].
  destruct (bfs_loop _ _ _) as [g2|] eqn:Hbfs; [|done].
  unfold take_path.
  destruct (_has_path g1); [|done]. destruct (_has_path g2); [|done].
  intros [= <- _] [= <- _].
  (* depth-first: every node reached is visited *)
  assert (Hfresh : start_node ∉ _visited_nodes g)
    by (rewrite Hvis; apply not_elem_of_empty).
  destruct (_dfs_adds _ _ _ _ _ Hfresh Hdfs)
    as (l & (Ho & Hnd & Hl & _ & _ & Hc) & Hstart).
  rewrite Horder in Ho. simpl in Ho.
  assert (Hreach : ∀ n, reach (_nodes g) end_node start_node n → n ∈ l).
  { induction 1 as [|u v w _ IH Hne Hin]; [done|].
    apply Hl. split; [by eapply Hc|]. rewrite Hvis. apply not_elem_of_empty. }
  (* breadth-first: every node visited is reached *)
  destruct (bfs_start_spec start_node g) as (_ & Hn0 & Hq0 & Hv0 & Ho0 & _).
  assert (Hinv : bfs_inv (_nodes g) end_node start_node
                   (bfs_start start_node g)).
  { split_and!.
    - intros n. rewrite Hv0, elem_of_singleton. intros ->. constructor.
    - intros n. rewrite Hq0, Hqueue. simpl.
      rewrite list_elem_of_singleton. intros ->. constructor.
    - rewrite Ho0. apply NoDup_singleton.
    - intros n. by rewrite Ho0, Hv0, list_elem_of_singleton, elem_of_singleton.
    - intros k. by rewrite Hn0. }
  destruct (bfs_loop_reach _ _ _ _ _ _ Hinv Hbfs) as (Hv2 & Hnd2 & Ho2).
  rewrite Ho. apply submseteq_length, NoDup_submseteq; [done|].
  intros n Hn. apply Hreach, Hv2. by apply Ho2.
Qed.

(** ** Validation *)

(** [_validate_nodes] raises exactly when the start node is missing, or the
    end node is missing and has a true truth value; the error names the
    start node when that one is missing and the end node otherwise. *)
Lemma _validate_nodes_spec (g : Graph) (start_node end_node : Node) :
  _validate_nodes g start_node end_node =
  if dict_contains (_nodes g) start_node
  then if dict_contains (_nodes g) end_node || negb (truthy end_node)
       then Ret tt
       else Raise (ValueError end_node)
  else Raise (ValueError start_node).
Proof.
  unfold _validate_nodes.
  destruct (dict_contains (_nodes g) start_node); simpl; [|done].
  by destruct (dict_contains (_nodes g) end_node), (truthy end_node).
Qed.

(** * The claims *)

(** C1.  [find_shortest_path] returns the breadth-first visitation order up
    to the moment the end node is dequeued, which need not be a path: on the
    4-cycle built from the edges (A,B), (B,C), (C,D), (D,A), in that order,
    [find_shortest_path(A, C)] returns [[A, B, D, C]], not [[A, B, C]],
    although B and D are not adjacent. *)
Theorem find_shortest_path_cycle4 :
  find_shortest_path cycle4 A C = Some (Ret (Some [A; B; D; C]), cycle4)
  ∧ dict_item (_nodes cycle4) B = [(A, None); (C, None)].
Proof. split; vm_compute; reflexivity. Qed.

(** C2.  [find_path] returns the whole depth-first order: after the end node
    is reached the callers' loops go on with the remaining neighbours.  On
    the star with the edges (A,B), (A,C), [find_path(A, B)] returns
    [[A, B, C]], whose last element is C and not B. *)
Theorem find_path_star3 :
  find_path star3 A B = Some (Ret (Some [A; B; C]), star3)
  ∧ last [A; B; C] = Some C.
Proof. split; vm_compute; reflexivity. Qed.




(** C4.  [_validate_nodes] tests the truth value of the end node, not
    whether it is [None]: a missing end node that is falsy, such as the
    integer 0, raises nothing.  On the undirected graph whose only node is
    1, the node 0 is absent, yet [find_path(1, 0)] and
    [find_shortest_path(1, 0)] return [None] and [add_edge(1, 0)] inserts
    the edge and the node 0. *)
Theorem falsy_end_node_not_validated :
  dict_contains (_nodes single_int) (PyInt 0) = false
  ∧ _validate_nodes single_int (PyInt 1) (PyInt 0) = Ret tt
  ∧ find_path single_int (PyInt 1) (PyInt 0) = Some (Ret None, single_int)
  ∧ find_shortest_path single_int (PyInt 1) (PyInt 0)
    = Some (Ret None, single_int)
  ∧ add_edge single_int (PyInt 1) (PyInt 0) None
    = (Ret tt,
       set_nodes [(PyInt 1, [(PyInt 0, None)]); (PyInt 0, [(PyInt 1, None)])]
         single_int).
Proof. split_and!; vm_compute; reflexivity. Qed.

(** C5.  [_bfs] returns as soon as the end node is dequeued and nothing
    empties the injected queue afterwards.  On the 4-cycle,
    [find_shortest_path(A, B)] returns [[A, B, D]] and leaves D in the
    queue; the same call on the same graph then returns [[A, C, B, D]]. *)
Theorem find_shortest_path_queue_leak :
  _fifo_queue cycle4 = []
  ∧ find_shortest_path cycle4 A B
    = Some (Ret (Some [A; B; D]), set_fifo_queue [D] cycle4)
  ∧ find_shortest_path (set_fifo_queue [D] cycle4) A B
    = Some (Ret (Some [A; C; B; D]), set_fifo_queue [D] cycle4).
Proof. split_and!; vm_compute; reflexivity. Qed.

(** C6.  With a node left in the queue by an earlier call, breadth-first
    search returns more nodes than depth-first search.  On the chain
    A-B-C-D, [find_shortest_path(B, A)] leaves C in the queue; then
    [find_shortest_path(A, B)] returns [[A, B, D]] while [find_path(A, B)]
    returns [[A, B]]. *)
Theorem find_shortest_path_longer_than_find_path :
  find_shortest_path chain4 B A
  = Some (Ret (Some [B; A; C]), set_fifo_queue [C] chain4)
  ∧ find_shortest_path (set_fifo_queue [C] chain4) A B
    = Some (Ret (Some [A; B; D]), set_fifo_queue [D] chain4)
  ∧ find_path (set_fifo_queue [C] chain4) A B
    = Some (Ret (Some [A; B]), set_fifo_queue [C] chain4)
  ∧ length [A; B] < length [A; B; D].
Proof. split_and!; vm_compute; reflexivity. Qed.

(** C7 fails as stated: on the undirected graph made by [add_node(None)]
    and [add_edge(None, None)], the detector, started at [None] with no
    parent, reaches the already-visited neighbour [None], a back-edge; yet
    [is_cyclic] returns [False], because the code passes [None] for "no
    parent" and so takes the node [None] for the parent. *)
Lemma is_cyclic_none_self_loop :
  cls none_loop = UndirectedGraph
  ∧ reachable none_loop
  ∧ reaches_back_edge (_nodes none_loop)
  ∧ is_cyclic none_loop = Some (Ret false)
  ∧ ¬ (is_cyclic none_loop = Some (Ret true)
       ↔ reaches_back_edge (_nodes none_loop)).
Proof.
  assert (Hback : reaches_back_edge (_nodes none_loop)).
  { unfold reaches_back_edge.
    change ((_nodes none_loop).*1) with [PyNone].
    eapply roots_cycle; [apply not_elem_of_empty|].
    change (dict_item (_nodes none_loop) PyNone)
      with [(PyNone, @None Z); (PyNone, @None Z)].
    apply explore_back_edge; [|done].
    apply elem_of_union. right. by apply elem_of_singleton. }
  assert (Hfalse : is_cyclic none_loop = Some (Ret false))
    by (vm_compute; reflexivity).
  split_and!; [reflexivity| |done|done|].
  - apply (reachable_exec (OpAddEdge PyNone PyNone None)
             (add_node (new_graph UndirectedGraph []) PyNone));
      [|reflexivity].
    apply (reachable_exec (OpAddNode PyNone) (new_graph UndirectedGraph []));
      [|reflexivity].
    apply reachable_new.
  - intros [_ Himp]. specialize (Himp Hback). rewrite Hfalse in Himp. done.
Qed.

(** C7, amended.  On the storage of an undirected graph (unique keys,
    symmetric edge lists) that does not use [None] as a node, [is_cyclic]
    returns, and it returns [True] exactly when some step of the traversal
    reaches an already-visited neighbour that is not the immediate parent
    of the current node, and [False] otherwise.  It returns [True] on the
    triangle A-B, B-C, C-A and [False] on the path A-B, B-C. *)
Theorem is_cyclic_back_edge (g : Graph) :
  cls g = UndirectedGraph →
  NoDup (_nodes g).*1 →
  symmetric (_nodes g) →
  dict_contains (_nodes g) PyNone = false →
  (∃ b, is_cyclic g = Some (Ret b))
  ∧ (is_cyclic g = Some (Ret true) ↔ reaches_back_edge (_nodes g))
  ∧ (is_cyclic g = Some (Ret false) ↔ ¬ reaches_back_edge (_nodes g))
  ∧ is_cyclic triangle = Some (Ret true)
  ∧ is_cyclic path3 = Some (Ret false).
Proof.
  intros _ Hnd Hsym Hnone.
  pose proof (symmetric_closed _ Hnd Hsym) as Hcl.
  destruct (is_cyclic_visited_init (_nodes g).*1) as [Hdom Hmarked].
  cbv zeta in Hdom, Hmarked.
  destruct (is_cyclic_loop_spec (S (length (dict_entries (_nodes g))))
              (_nodes g) ltac:(lia) (_nodes g).*1
              (list_to_map ((λ node, (node, false)) <$> (_nodes g).*1)))
    as (r & Hr & Hcond).
  destruct Hcond as (b & -> & Hex).
  { intros n Hn. rewrite Hdom. apply elem_of_list_to_set.
    apply dict_contains_elem. by apply Hcl. }
  { intros Hn. apply Hcl in Hn. congruence. }
  { intros k Hk. rewrite Hdom. by apply elem_of_list_to_set. }
  rewrite Hmarked in Hex. fold (is_cyclic g) in Hr.
  unfold reaches_back_edge. rewrite Hr.
  split_and!.
  - by exists b.
  - split.
    + intros [= ->]. done.
    + intros Hback. by rewrite (ExploreRoots_det _ _ _ _ Hex _ Hback).
  - split.
    + intros [= ->] Hback.
      by pose proof (ExploreRoots_det _ _ _ _ Hex _ Hback).
    + intros Hno. destruct b; [by destruct Hno|done].
  - vm_compute. reflexivity.
  - vm_compute. reflexivity.
Qed.

Lemma is_cyclic_back_edge_witness :
  (∃ b, is_cyclic triangle = Some (Ret b))
  ∧ (is_cyclic triangle = Some (Ret true)
     ↔ reaches_back_edge (_nodes triangle))
  ∧ (is_cyclic triangle = Some (Ret false)
     ↔ ¬ reaches_back_edge (_nodes triangle))
  ∧ is_cyclic triangle = Some (Ret true)
  ∧ is_cyclic path3 = Some (Ret false).
Proof.
  apply (is_cyclic_back_edge triangle).
  - reflexivity.
  - apply (bool_decide_unpack _). vm_compute. exact I.
  - apply symmetricb_sound. vm_compute. reflexivity.
  - reflexivity.
Defined.

(** C8.  On a symmetric storage with unique keys and no stale visited
    nodes, [connected_components] returns one set that holds exactly the
    nodes with at least one edge, all components merged, and leaves the
    storage as it was.  With the nodes A, B, C and no edge it returns the
    empty set; with the edges (A,B) and (C,D) it returns the single set
    {A, B, C, D}. *)
Theorem connected_components_flattened (g : Graph) :
  NoDup (_nodes g).*1 →
  symmetric (_nodes g) →
  _visited_nodes g = ∅ →
  (∃ (comps : gset Node) (g' : Graph),
      connected_components g = Some (Ret comps, g')
      ∧ (∀ n, n ∈ comps ↔ dict_item (_nodes g) n ≠ [])
      ∧ _nodes g' = _nodes g
      ∧ clean g')
  ∧ connected_components isolated3 = Some (Ret ∅, isolated3)
  ∧ connected_components two_edges = Some (Ret {[A; B; C; D]}, two_edges).
Proof.
  intros Hnd Hsym Hvis.
  split_and!; [|vm_compute; reflexivity|vm_compute; reflexivity].
  pose proof (symmetric_closed _ Hnd Hsym) as Hcl.
  unfold connected_components.
  destruct (cc_loop_spec (length (_nodes g)) (_nodes g).*1 g)
    as (r & g' & -> & Hst & Hq & Hsub & Hcond).
  destruct Hcond as (-> & Hn & Hroots & Hnew); [done| |done|].
  { intros k Hk. by apply dict_contains_elem. }
  eexists _, _. split_and!; [done| |done|done].
  intros n. split.
  - intros Hin. destruct (Hnew n Hin) as [H1|[H1|[_ H1]]]; [|by eapply symmetric_targets|done].
    rewrite Hvis in H1. by apply not_elem_of_empty in H1.
  - intros Hne. apply Hroots; [|done].
    apply dict_contains_elem.
    destruct (dict_contains (_nodes g) n) eqn:Hc; [done|].
    by apply dict_item_missing in Hc.
Qed.

Lemma connected_components_flattened_witness :
  (∃ (comps : gset Node) (g' : Graph),
      connected_components two_edges = Some (Ret comps, g')
      ∧ (∀ n, n ∈ comps ↔ dict_item (_nodes two_edges) n ≠ [])
      ∧ _nodes g' = _nodes two_edges
      ∧ clean g')
  ∧ connected_components isolated3 = Some (Ret ∅, isolated3)
  ∧ connected_components two_edges = Some (Ret {[A; B; C; D]}, two_edges).
Proof.
  apply (connected_components_flattened two_edges).
  - apply (bool_decide_unpack _). vm_compute. exact I.
  - apply symmetricb_sound. vm_compute. reflexivity.
  - reflexivity.
Defined.

(** C9.  On the undirected variant, [add_edge(u, v, w)] succeeds exactly
    when validation lets it pass (the start node is present, and the end
    node is present or falsy), in particular whenever both endpoints are
    present; it then returns after appending [{v: w}] at the end of the
    list of [u] and then [{u: w}] at the end of the list of [v], with the
    same weight, and changes no other list; otherwise it raises
    [ValueError] and changes nothing.  The symmetry of the storage is kept
    by it and by every other operation, each of which returns and only
    extends the edge lists. *)
Theorem undirected_add_edge_symmetry
    (g : Graph) (u v : Node) (w : Weight) (op : Op) :
  cls g = UndirectedGraph →
  symmetric (_nodes g) →
  (if dict_contains (_nodes g) u
      && (dict_contains (_nodes g) v || negb (truthy v))
   then
     ∃ g', add_edge g u v w = (Ret tt, g')
           ∧ (∀ k, dict_item (_nodes g') k
                   = dict_item (_nodes g) k
                       ++ (if decide (k = u) then [(v, w)] else [])
                       ++ (if decide (k = v) then [(u, w)] else []))
           ∧ symmetric (_nodes g')
   else
     ∃ n, add_edge g u v w = (Raise (ValueError n), g))
  ∧ ∃ g', exec op g = Some g'
          ∧ cls g' = UndirectedGraph
          ∧ symmetric (_nodes g')
          ∧ ∀ k, dict_item (_nodes g) k `prefix_of` dict_item (_nodes g') k.
Proof.
  intros Hcls Hsym. split.
  - unfold add_edge, _add_edge. rewrite Hcls.
    unfold UndirectedGraph_add_edge. rewrite _validate_nodes_spec.
    destruct (dict_contains (_nodes g) u); cbn [andb]; [|by eexists].
    destruct (dict_contains (_nodes g) v || negb (truthy v)); [|by eexists].
    eexists. split; [done|]. simpl.
    split; [apply dict_item_add_edge|by apply add_edge_symmetric].
  - destruct (exec_spec op g) as (g' & Hex & Hc & Hpre & Hs & _).
    exists g'. split_and!; [done|congruence|by apply Hs|done].
Qed.

Lemma undirected_add_edge_symmetry_witness :
  (∃ g', add_edge path3 C A (Some 7%Z) = (Ret tt, g')
         ∧ (∀ k, dict_item (_nodes g') k
                 = dict_item (_nodes path3) k
                     ++ (if decide (k = C) then [(A, Some 7%Z)] else [])
                     ++ (if decide (k = A) then [(C, Some 7%Z)] else []))
         ∧ symmetric (_nodes g'))
  ∧ ∃ g', exec (OpAddEdge C A (Some 7%Z)) path3 = Some g'
          ∧ cls g' = UndirectedGraph
          ∧ symmetric (_nodes g')
          ∧ ∀ k, dict_item (_nodes path3) k `prefix_of` dict_item (_nodes g') k.
Proof.
  apply (undirected_add_edge_symmetry path3 C A (Some 7%Z)
           (OpAddEdge C A (Some 7%Z))).
  - reflexivity.
  - apply symmetricb_sound. vm_compute. reflexivity.
Defined.

(** C10.  [add_edge] on an object of the base class runs
    [BaseGraph._add_edge], which is [pass]: for any arguments, absent
    endpoints included, it raises nothing and leaves the object, and so the
    storage, as it was. *)
Theorem base_add_edge_noop (g : Graph) (from_node to_node : Node)
    (weight : Weight) :
  cls g = BaseGraph →
  add_edge g from_node to_node weight = (Ret tt, g).
Proof. intros Hcls. unfold add_edge, _add_edge. by rewrite Hcls. Qed.

Lemma base_add_edge_noop_witness :
  add_edge (new_graph BaseGraph []) A B (Some 3%Z)
  = (Ret tt, new_graph BaseGraph []).
Proof.
  apply (base_add_edge_noop (new_graph BaseGraph []) A B (Some 3%Z)).
  reflexivity.
Defined.

(** * Further properties of the code *)

(** ** Reachability *)

Lemma reach_connected (d : Dict) (e s n : Node) :
  reach d e s n → connected d s n.
Proof.
  induction 1 as [|u v w _ IH _ Hin]; [apply rtc_refl|].
  eapply rtc_r; [exact IH|]. by exists w.
Qed.

(** A path to [e] can be cut where it first meets [e]. *)
Lemma connected_reach (d : Dict) (e s : Node) :
  connected d s e → reach d e s e.
Proof.
  intros Hc.
  assert (H : ∀ n, connected d s n → reach d e s n ∨ reach d e s e).
  { intros n Hn. unfold connected in Hn. revert n Hn.
    apply (rtc_ind_r (λ n, reach d e s n ∨ reach d e s e)).
    - left. constructor.
    - intros u v _ [w Hin] IH. destruct IH as [IH|IH]; [|by right].
      destruct (decide (u = e)) as [->|Hne]; [by right|].
      left. by eapply reach_step. }
  by destruct (H e Hc).
Qed.

(** ** The flag and the order of depth-first search *)

Lemma bool_decide_elem_of_app (x : Node) (l1 l2 : list Node) :
  bool_decide (x ∈ l1 ++ l2) = bool_decide (x ∈ l1) || bool_decide (x ∈ l2).
Proof.
  destruct (bool_decide (x ∈ l1)) eqn:H1; simpl.
  - apply bool_decide_eq_true. apply bool_decide_eq_true in H1.
    apply elem_of_app. by left.
  - apply bool_decide_eq_false in H1.
    destruct (bool_decide (x ∈ l2)) eqn:H2.
    + apply bool_decide_eq_true. apply bool_decide_eq_true in H2.
      apply elem_of_app. by right.
    + apply bool_decide_eq_false. apply bool_decide_eq_false in H2.
      rewrite elem_of_app. by intros [?|?].
Qed.

Lemma dfs_loop_flag (fuel : nat) (e : Node) :
  (∀ node g g',
     _dfs fuel node e g = Some g' →
     ∃ l, _traversal_order g' = _traversal_order g ++ node :: l
          ∧ _has_path g' = _has_path g || bool_decide (e ∈ node :: l)) →
  ∀ (es : list Edge) (g g' : Graph),
    for_each
      (λ edge g,
         let neighbour_node := edge_key edge in
         if decide (neighbour_node ∈ _visited_nodes g) then Some g
         else _dfs fuel neighbour_node e g) es g = Some g' →
    ∃ l, _traversal_order g' = _traversal_order g ++ l
         ∧ _has_path g' = _has_path g || bool_decide (e ∈ l).
Proof.
  intros Hrec es. induction es as [|ed es IH]; intros g g'; simpl.
  - intros [= <-]. exists []. rewrite app_nil_r. split; [done|].
    rewrite bool_decide_eq_false_2; [by rewrite orb_false_r|].
    apply not_elem_of_nil.
  - destruct (decide (edge_key ed ∈ _visited_nodes g)); [by apply IH|].
    destruct (_dfs fuel (edge_key ed) e g) as [g1|] eqn:Hdfs; [|done].
    intros Hloop.
    destruct (Hrec _ _ _ Hdfs) as (l1 & Ho1 & Hp1).
    destruct (IH _ _ Hloop) as (l2 & Ho2 & Hp2).
    exists ((edge_key ed :: l1) ++ l2). split.
    + rewrite Ho2, Ho1. by rewrite <- app_assoc.
    + rewrite Hp2, Hp1, bool_decide_elem_of_app. by rewrite orb_assoc.
Qed.

(** The flag after [_dfs] is set exactly when it was set before or the end
    node is among the nodes appended to the order. *)
Lemma _dfs_flag (fuel : nat) (e : Node) :
  ∀ node g g',
    _dfs fuel node e g = Some g' →
    ∃ l, _traversal_order g' = _traversal_order g ++ node :: l
         ∧ _has_path g' = _has_path g || bool_decide (e ∈ node :: l).
Proof.
  induction fuel as [|fuel IH]; intros node g g'; simpl; [done|].
  destruct (decide (node = e)) as [->|Hne].
  - intros [= <-]. exists []. split; [done|]. simpl.
    rewrite bool_decide_eq_true_2; [by rewrite orb_true_r|]. left.
  - intros Hloop.
    destruct (dfs_loop_flag fuel e IH _ _ _ Hloop) as (l & Ho & Hp).
    exists l. simpl in Ho, Hp. split.
    + by rewrite Ho, <- app_assoc.
    + rewrite Hp. f_equal. apply bool_decide_ext.
      rewrite elem_of_cons. naive_solver.
Qed.

(** [_dfs] only visits nodes reached from the start without leaving the
    end node. *)
Lemma dfs_loop_sound (d : Dict) (e s : Node) (fuel : nat) :
  (∀ node g g',
     (∀ k, dict_item (_nodes g) k = dict_item d k) →
     (∀ n, n ∈ _visited_nodes g → reach d e s n) →
     reach d e s node →
     _dfs fuel node e g = Some g' →
     (∀ k, dict_item (_nodes g') k = dict_item d k)
     ∧ (∀ n, n ∈ _visited_nodes g' → reach d e s n)) →
  ∀ (es : list Edge) (g g' : Graph),
    (∀ k, dict_item (_nodes g) k = dict_item d k) →
    (∀ n, n ∈ _visited_nodes g → reach d e s n) →
    (∀ ed, ed ∈ es → reach d e s ed.1) →
    for_each
      (λ edge g,
         let neighbour_node := edge_key edge in
         if decide (neighbour_node ∈ _visited_nodes g) then Some g
         else _dfs fuel neighbour_node e g) es g = Some g' →
    (∀ k, dict_item (_nodes g') k = dict_item d k)
    ∧ (∀ n, n ∈ _visited_nodes g' → reach d e s n).
Proof.
  intros Hrec es. induction es as [|ed es IH]; intros g g' Hi Hv Hes; simpl.
  - by intros [= <-].
  - assert (Hes' : ∀ ed', ed' ∈ es → reach d e s ed'.1)
      by (intros ed' Hed'; apply Hes; by right).
    destruct (decide (edge_key ed ∈ _visited_nodes g)); [by apply IH|].
    destruct (_dfs fuel (edge_key ed) e g) as [g1|] eqn:Hdfs; [|done].
    destruct (Hrec _ _ _ Hi Hv (Hes ed ltac:(left)) Hdfs) as [Hi1 Hv1].
    by apply IH.
Qed.

Lemma _dfs_sound (d : Dict) (e s : Node) (fuel : nat) :
  ∀ node g g',
    (∀ k, dict_item (_nodes g) k = dict_item d k) →
    (∀ n, n ∈ _visited_nodes g → reach d e s n) →
    reach d e s node →
    _dfs fuel node e g = Some g' →
    (∀ k, dict_item (_nodes g') k = dict_item d k)
    ∧ (∀ n, n ∈ _visited_nodes g' → reach d e s n).
Proof.
  induction fuel as [|fuel IH]; intros node g g' Hi Hv Hnode; simpl; [done|].
  assert (Hv1 : ∀ n, n ∈ _visited_nodes g ∪ {[node]} → reach d e s n).
  { intros n Hn. apply elem_of_union in Hn as [Hn|Hn]; [by apply Hv|].
    by apply elem_of_singleton in Hn as ->. }
  destruct (decide (node = e)) as [->|Hne].
  - by intros [= <-].
  - apply (dfs_loop_sound d e s fuel IH).
    + intros k. simpl. by rewrite dict_item_touch.
    + done.
    + intros [v w] Hed. unfold nodes_item in Hed. simpl in Hed.
      rewrite Hi in Hed. by eapply reach_step.
Qed.

(** What [find_path] computes on an object without traversal state: the
    order [l] of a depth-first search that visits exactly the nodes reached
    from the start without leaving the end node, and sets the flag when the
    end node is among them. *)
Lemma find_path_run (g : Graph) (start_node end_node : Node) :
  clean g →
  _validate_nodes g start_node end_node = Ret tt →
  ∃ g1 l,
    _dfs (dfs_budget g) start_node end_node g = Some g1
    ∧ _traversal_order g1 = l
    ∧ NoDup l
    ∧ head l = Some start_node
    ∧ (∀ n, n ∈ l ↔ reach (_nodes g) end_node start_node n)
    ∧ _has_path g1 = _has_path g || bool_decide (end_node ∈ l)
    ∧ _fifo_queue g1 = _fifo_queue g
    ∧ cls g1 = cls g
    ∧ (closed (_nodes g) → _nodes g1 = _nodes g).
Proof.
  intros [Hvis Horder] Hval.
  assert (Hstart : dict_contains (_nodes g) start_node = true).
  { rewrite _validate_nodes_spec in Hval.
    by destruct (dict_contains (_nodes g) start_node). }
  destruct (_dfs_terminates g start_node end_node)
    as (g1 & Hdfs & Hrel & Hq & Hn).
  assert (Hfresh : start_node ∉ _visited_nodes g)
    by (rewrite Hvis; apply not_elem_of_empty).
  destruct (_dfs_adds _ _ _ _ _ Hfresh Hdfs)
    as (l & (Ho & Hnd & Hl & _ & _ & Hc) & Hin).
  destruct (_dfs_flag _ _ _ _ _ Hdfs) as (l' & Ho' & Hp).
  rewrite Horder in Ho, Ho'. simpl in Ho, Ho'.
  assert (l = start_node :: l') as Heq by congruence.
  destruct (_dfs_sound (_nodes g) end_node start_node _ _ _ _
              (λ k, eq_refl) ltac:(rewrite Hvis; set_solver)
              (reach_start _ _ _) Hdfs) as [_ Hsound].
  exists g1, l. split_and!; [done|done|done|by rewrite Heq| |by rewrite Heq| |
                             apply (trav_cls _ _ Hrel)|by auto].
  - intros n. split.
    + intros Hn'. apply Hsound. by apply Hl in Hn' as [? _].
    + induction 1 as [|u v w _ IH Hne Hed]; [done|].
      apply Hl. split; [by eapply Hc|]. rewrite Hvis. apply not_elem_of_empty.
  - done.
Qed.

(** ** Completeness of breadth-first search *)

Lemma bfs_edges_done (es : list Edge) :
  ∀ g : Graph,
    _visited_nodes g ⊆ _visited_nodes (foldl bfs_visit_edge g es)
    ∧ (∀ n, n ∈ _fifo_queue g → n ∈ _fifo_queue (foldl bfs_visit_edge g es))
    ∧ (∀ n, n ∈ _visited_nodes (foldl bfs_visit_edge g es) →
            n ∈ _visited_nodes g ∨ n ∈ _fifo_queue (foldl bfs_visit_edge g es))
    ∧ (∀ ed, ed ∈ es → ed.1 ∈ _visited_nodes (foldl bfs_visit_edge g es))
    ∧ (∃ l, _traversal_order (foldl bfs_visit_edge g es)
            = _traversal_order g ++ l).
Proof.
  induction es as [|ed es IH]; intros g; simpl.
  - split_and!; [done|done|by left| |exists []; by rewrite app_nil_r].
    intros ed Hed. by apply elem_of_nil in Hed.
  - destruct (IH (bfs_visit_edge g ed)) as (Hv & Hq & Hnew & Hes & l & Ho).
    assert (Hstep : _visited_nodes g ⊆ _visited_nodes (bfs_visit_edge g ed)
              ∧ (∀ n, n ∈ _fifo_queue g → n ∈ _fifo_queue (bfs_visit_edge g ed))
              ∧ (∀ n, n ∈ _visited_nodes (bfs_visit_edge g ed) →
                      n ∈ _visited_nodes g
                      ∨ n ∈ _fifo_queue (bfs_visit_edge g ed))
              ∧ ed.1 ∈ _visited_nodes (bfs_visit_edge g ed)
              ∧ ∃ l, _traversal_order (bfs_visit_edge g ed)
                     = _traversal_order g ++ l).
    { unfold bfs_visit_edge, edge_key.
      destruct (decide (ed.1 ∈ _visited_nodes g)) as [Hin|Hnin].
      - split_and!; [done|done|by left|done|exists []; by rewrite app_nil_r].
      - simpl. unfold enqueue. split_and!.
        + apply union_subseteq_l.
        + intros n Hn. apply elem_of_app. by left.
        + intros n Hn. apply elem_of_union in Hn as [Hn|Hn]; [by left|].
          right. apply elem_of_app. right.
          apply elem_of_singleton in Hn as ->. left.
        + apply elem_of_union. right. by apply elem_of_singleton.
        + by eexists. }
    destruct Hstep as (Hv1 & Hq1 & Hnew1 & Hed1 & l1 & Ho1).
    split_and!.
    + by etrans.
    + intros n Hn. by apply Hq, Hq1.
    + intros n Hn. destruct (Hnew n Hn) as [Hn'|Hn']; [|by right].
      destruct (Hnew1 n Hn') as [?|?]; [by left|]. right. by apply Hq.
    + intros ed' Hed'. apply elem_of_cons in Hed' as [->|Hed'].
      * by apply Hv.
      * by apply Hes.
    + exists (l1 ++ l). by rewrite Ho, Ho1, app_assoc.
Qed.

(** The loop of [_bfs] ends with the flag set, or with every visited node
    different from the end node and all its neighbours visited. *)
Lemma bfs_loop_done (d : Dict) (e : Node) (fuel : nat) :
  ∀ g g' : Graph,
    bfs_done d e g →
    (∀ k, dict_item (_nodes g) k = dict_item d k) →
    bfs_loop fuel e g = Some g' →
    _visited_nodes g ⊆ _visited_nodes g'
    ∧ (∃ l, _traversal_order g' = _traversal_order g ++ l)
    ∧ (_has_path g' = true
       ∨ ∀ u, u ∈ _visited_nodes g' →
              u ≠ e ∧ ∀ v w, (v, w) ∈ dict_item d u → v ∈ _visited_nodes g').
Proof.
  induction fuel as [|fuel IH]; intros g g' Hdone Hi; simpl; [done|].
  destruct (_fifo_queue g) as [|current q] eqn:Hqueue; simpl.
  - intros [= <-]. split_and!; [done|exists []; by rewrite app_nil_r|].
    right. intros u Hu. destruct (Hdone u Hu) as [Hq|?]; [|done].
    rewrite Hqueue in Hq. by apply elem_of_nil in Hq.
  - destruct (decide (current = e)) as [->|Hne].
    + intros [= <-]. split_and!; [done|exists []; by rewrite app_nil_r|by left].
    + set (g1 := nodes_touch current (set_fifo_queue q g)).
      set (es := nodes_item (set_fifo_queue q g) current).
      destruct (bfs_edges_done es g1) as (Hv & Hq & Hnew & Hes & l1 & Ho1).
      pose proof (bfs_edges_spec es g1) as Hspec.
      destruct Hspec as (_ & Hn & _).
      { intros ed Hed. simpl. rewrite dict_entries_touch.
        by eapply dict_item_entries. }
      intros Hloop. apply IH in Hloop as (Hv' & (l2 & Ho2) & Hend).
      * split_and!; [by etrans| |done].
        exists (l1 ++ l2). by rewrite Ho2, Ho1, app_assoc.
      * intros u Hu. destruct (Hnew u Hu) as [Hu'|Hu']; [|by left].
        simpl in Hu'. destruct (Hdone u Hu') as [Hin|[Hue Hcl]].
        -- rewrite Hqueue in Hin. apply elem_of_cons in Hin as [->|Hin].
           ++ right. split; [done|]. intros v w Hed.
              apply (Hes (v, w)). unfold es, nodes_item. simpl.
              by rewrite Hi.
           ++ left. by apply Hq.
        -- right. split; [done|]. intros v w Hed. apply Hv. simpl.
           by eapply Hcl.
      * intros k. rewrite Hn. simpl. by rewrite dict_item_touch.
Qed.

(** When the loop of [_bfs] sets the flag, the end node is reached and
    visited. *)
Lemma bfs_loop_found (d : Dict) (e s : Node) (fuel : nat) :
  ∀ g g' : Graph,
    bfs_inv d e s g →
    (∀ n, n ∈ _fifo_queue g → n ∈ _visited_nodes g) →
    bfs_loop fuel e g = Some g' →
    _has_path g' = true →
    _has_path g = true ∨ (reach d e s e ∧ e ∈ _visited_nodes g').
Proof.
  induction fuel as [|fuel IH]; intros g g' Hinv Hqv; simpl; [done|].
  destruct (_fifo_queue g) as [|current q] eqn:Hqueue; simpl.
  - intros [= <-]. by left.
  - destruct (decide (current = e)) as [->|Hne].
    + intros [= <-] _. right.
      destruct Hinv as (_ & Hq & _). rewrite Hqueue in Hq.
      split; [apply Hq; left|apply Hqv; left].
    + set (g1 := nodes_touch current (set_fifo_queue q g)).
      set (es := nodes_item (set_fifo_queue q g) current).
      intros Hloop Hp.
      destruct (bfs_edges_done es g1) as (Hv & Hq & Hnew & _).
      pose proof (bfs_edges_spec es g1) as Hspec.
      destruct Hspec as (_ & _ & Hflag & _).
      { intros ed Hed. simpl. rewrite dict_entries_touch.
        by eapply dict_item_entries. }
      destruct Hinv as (Hiv & Hiq & Hnd & Hio & Hi).
      assert (Hinv1 : bfs_inv d e s g1).
      { split_and!; simpl; [done| |done|done|].
        - intros n Hn. apply Hiq. rewrite Hqueue. by right.
        - intros k. by rewrite dict_item_touch. }
      assert (Hes : ∀ ed, ed ∈ es → reach d e s ed.1).
      { intros [v w] Hed. unfold es, nodes_item in Hed. simpl in Hed.
        rewrite Hi in Hed. eapply reach_step; [|exact Hne|exact Hed].
        apply Hiq. rewrite Hqueue. left. }
      apply IH in Hloop as [Hp'|?];
        [left; rewrite Hflag in Hp'; exact Hp'|by right| | |done].
      * by apply bfs_edges_reach.
      * intros n Hn.
        destruct (decide (n ∈ _visited_nodes (foldl bfs_visit_edge g1 es)))
          as [?|Hnv]; [done|].
        exfalso. apply Hnv.
        assert (Hcase : ∀ g0 es0,
          (∀ n, n ∈ _fifo_queue g0 → n ∈ _visited_nodes g0) →
          ∀ n, n ∈ _fifo_queue (foldl bfs_visit_edge g0 es0) →
               n ∈ _visited_nodes (foldl bfs_visit_edge g0 es0)).
        { clear. intros g0 es0. revert g0.
          induction es0 as [|ed es0 IH0]; intros g0 H0; simpl; [done|].
          apply IH0. unfold bfs_visit_edge, edge_key.
          destruct (decide (ed.1 ∈ _visited_nodes g0)); [done|]. simpl.
          intros m Hm. unfold enqueue in Hm.
          apply elem_of_app in Hm as [Hm|Hm].
          - apply elem_of_union. left. by apply H0.
          - apply list_elem_of_singleton in Hm as ->.
            apply elem_of_union. right. by apply elem_of_singleton. }
        apply Hcase; [|done]. simpl. intros n0 Hn0. apply Hqv. by right.
Qed.

(** What [find_shortest_path] computes on an object whose queue is empty:
    the order [l] of a breadth-first search that only visits nodes reached
    from the start, and sets the flag exactly when the end node is
    reached. *)
Lemma find_shortest_path_run (g : Graph) (start_node end_node : Node) :
  _fifo_queue g = [] →
  ∃ g1 l,
    _bfs (bfs_budget (bfs_start start_node g)) start_node end_node g = Some g1
    ∧ _traversal_order g1 = start_node :: l
    ∧ NoDup (start_node :: l)
    ∧ (∀ n, n ∈ start_node :: l → reach (_nodes g) end_node start_node n)
    ∧ (_has_path g1 = true →
       _has_path g = true
       ∨ (reach (_nodes g) end_node start_node end_node
          ∧ end_node ∈ start_node :: l))
    ∧ (reach (_nodes g) end_node start_node end_node → _has_path g1 = true).
Proof.
  intros Hqueue. unfold _bfs.
  destruct (bfs_start_spec start_node g) as (_ & Hn0 & Hq0 & Hv0 & Ho0 & Hp0).
  rewrite Hqueue, app_nil_l in Hq0.
  destruct (bfs_loop_spec (bfs_budget (bfs_start start_node g)) end_node
              (bfs_start start_node g)) as (g1 & Hbfs & _ & _).
  { unfold bfs_budget.
    pose proof (pending_le_length (_visited_nodes (bfs_start start_node g))
                  (dict_entries (_nodes (bfs_start start_node g)))). lia. }
  assert (Hinv : bfs_inv (_nodes g) end_node start_node
                   (bfs_start start_node g)).
  { split_and!.
    - intros n. rewrite Hv0, elem_of_singleton. intros ->. constructor.
    - intros n. rewrite Hq0, list_elem_of_singleton. intros ->. constructor.
    - rewrite Ho0. apply NoDup_singleton.
    - intros n. by rewrite Ho0, Hv0, list_elem_of_singleton, elem_of_singleton.
    - intros k. by rewrite Hn0. }
  assert (Hqv : ∀ n, n ∈ _fifo_queue (bfs_start start_node g) →
                     n ∈ _visited_nodes (bfs_start start_node g)).
  { intros n. by rewrite Hq0, Hv0, list_elem_of_singleton, elem_of_singleton. }
  assert (Hdone : bfs_done (_nodes g) end_node (bfs_start start_node g)).
  { intros u Hu. left. rewrite Hq0. rewrite Hv0 in Hu.
    apply elem_of_singleton in Hu as ->. left. }
  destruct (bfs_loop_reach _ _ _ _ _ _ Hinv Hbfs) as (Hv2 & Hnd2 & Ho2).
  destruct (bfs_loop_done _ _ _ _ _ Hdone ltac:(intros k; by rewrite Hn0) Hbfs)
    as (Hsub & (l & Ho) & Hend).
  rewrite Ho0 in Ho. simpl in Ho.
  exists g1, l. rewrite <- Ho. split_and!; [done|done|done| | |].
  - intros n Hn. by apply Hv2, Ho2.
  - intros Hp.
    destruct (bfs_loop_found _ _ _ _ _ _ Hinv Hqv Hbfs Hp) as [Hp'|[Hr Hin]].
    + left. by rewrite <- Hp0.
    + right. split; [done|]. by apply Ho2.
  - intros Hr. destruct Hend as [?|Hclosed]; [done|]. exfalso.
    assert (Hall : ∀ n, reach (_nodes g) end_node start_node n →
                        n ∈ _visited_nodes g1).
    { induction 1 as [|u v w _ IH Hne Hed].
      - apply Hsub. rewrite Hv0. by apply elem_of_singleton.
      - destruct (Hclosed u IH) as [_ Hcl]. by eapply Hcl. }
    by destruct (Hclosed _ (Hall _ Hr)).
Qed.

Lemma graph_eq (g g' : Graph) :
  cls g' = cls g → _fifo_queue g' = _fifo_queue g → _nodes g' = _nodes g →
  _visited_nodes g' = _visited_nodes g →
  _traversal_order g' = _traversal_order g → _has_path g' = _has_path g →
  g' = g.
Proof. destruct g, g'. simpl. by intros -> -> -> -> -> ->. Qed.

(** ** Extras *)

(** X1.  [add_node] is idempotent: adding a node a second time changes
    nothing.  After the call the node is a key of the storage read through
    [nodes], the keys that were there are still there, and every edge list
    is as it was. *)
Theorem add_node_idempotent (g : Graph) (node : Node) :
  add_node (add_node g node) node = add_node g node
  ∧ dict_contains (nodes (add_node g node)) node = true
  ∧ (∀ k, dict_contains (nodes g) k = true →
          dict_contains (nodes (add_node g node)) k = true)
  ∧ (∀ k, dict_item (nodes (add_node g node)) k = dict_item (nodes g) k).
Proof.
  unfold nodes.
  assert (Hin : dict_contains (_nodes (add_node g node)) node = true).
  { unfold add_node. destruct (dict_contains (_nodes g) node) eqn:Hc;
      simpl; [done|].
    unfold dict_contains. rewrite dict_get_app.
    destruct (dict_get (_nodes g) node); [done|]. simpl.
    by rewrite decide_True. }
  split_and!.
  - unfold add_node at 1. by rewrite Hin.
  - done.
  - intros k Hk. unfold add_node.
    destruct (dict_contains (_nodes g) node); simpl; [done|].
    unfold dict_contains in *. rewrite dict_get_app.
    by destruct (dict_get (_nodes g) k).
  - apply add_node_item.
Qed.

(** X2.  When the start node is missing, or the end node is missing and
    truthy, [find_path], [find_shortest_path] and
    [UndirectedGraph._add_edge] raise [ValueError] for the first missing
    node (the start node is looked at first) and leave the object exactly as
    it was: nothing is traversed, queued or inserted. *)
Theorem missing_node_raises (g : Graph) (start_node end_node : Node)
    (weight : Weight) :
  dict_contains (nodes g) start_node = false
  ∨ (dict_contains (nodes g) end_node = false ∧ truthy end_node = true) →
  let missing_node :=
    if dict_contains (nodes g) start_node then end_node else start_node in
  find_path g start_node end_node = Some (Raise (ValueError missing_node), g)
  ∧ find_shortest_path g start_node end_node
    = Some (Raise (ValueError missing_node), g)
  ∧ UndirectedGraph_add_edge g start_node end_node weight
    = (Raise (ValueError missing_node), g).
Proof.
  unfold nodes. intros Hmiss. cbv zeta.
  assert (Hval : _validate_nodes g start_node end_node
                 = Raise (ValueError
                     (if dict_contains (_nodes g) start_node
                      then end_node else start_node))).
  { rewrite _validate_nodes_spec.
    destruct (dict_contains (_nodes g) start_node); [|done].
    destruct Hmiss as [?|[-> ->]]; done. }
  unfold find_path, find_shortest_path, UndirectedGraph_add_edge.
  by rewrite Hval.
Qed.

Lemma missing_node_raises_witness :
  let missing_node :=
    if dict_contains (nodes path3) A then D else A in
  find_path path3 A D = Some (Raise (ValueError missing_node), path3)
  ∧ find_shortest_path path3 A D
    = Some (Raise (ValueError missing_node), path3)
  ∧ UndirectedGraph_add_edge path3 A D (Some 2%Z)
    = (Raise (ValueError missing_node), path3).
Proof.
  apply (missing_node_raises path3 A D (Some 2%Z)).
  right. split; reflexivity.
Defined.

(** X3.  Every traversal returns: on every object, whatever state an
    earlier call left in it and whatever the storage holds, [find_path],
    [find_shortest_path], [connected_components] and [is_cyclic] come back
    with a result or an exception; the recursion of [_dfs] and
    [_detect_cycles] and the loop of [_bfs] always end. *)
Theorem traversals_return (g : Graph) (start_node end_node : Node) :
  is_Some (find_path g start_node end_node)
  ∧ is_Some (find_shortest_path g start_node end_node)
  ∧ is_Some (connected_components g)
  ∧ is_Some (is_cyclic g).
Proof.
  split_and!.
  - destruct (find_path_returns g start_node end_node) as (r & g' & -> & _).
    by eexists.
  - destruct (find_shortest_path_returns g start_node end_node)
      as (r & g' & -> & _).
    by eexists.
  - destruct (connected_components_returns g) as (r & g' & -> & _).
    by eexists.
  - destruct (is_cyclic_returns g) as (r & ->). by eexists.
Qed.

(** X4.  Every object that the constructor and the public methods can
    produce has a storage with unique keys and symmetric edge lists in which
    every neighbour is itself a key, and holds no traversal state (empty
    visited set, empty order) between two calls. *)
Theorem reachable_storage_invariant (g : Graph) :
  reachable g →
  NoDup (nodes g).*1 ∧ symmetric (nodes g) ∧ closed (nodes g) ∧ clean g.
Proof.
  intros Hr. unfold nodes.
  destruct (reachable_inv g Hr) as (Hnd & Hsym & Hclean).
  split_and!; [done|done|by apply symmetric_closed|done].
Qed.

Lemma reachable_storage_invariant_witness :
  NoDup (nodes path3).*1 ∧ symmetric (nodes path3) ∧ closed (nodes path3)
  ∧ clean path3.
Proof.
  apply (reachable_storage_invariant path3).
  apply (reachable_exec (OpAddEdge B C None) (undirected [A; B; C] [(A, B)]));
    [|reflexivity].
  apply (reachable_exec (OpAddEdge A B None) (undirected [A; B; C] []));
    [|reflexivity].
  apply (reachable_exec (OpAddNode C) (undirected [A; B] [])); [|reflexivity].
  apply (reachable_exec (OpAddNode B) (undirected [A] [])); [|reflexivity].
  apply (reachable_exec (OpAddNode A) (new_graph UndirectedGraph []));
    [|reflexivity].
  apply reachable_new.
Defined.

(** X5.  [find_path] is a pure query on a well-formed object: with unique
    keys, symmetric lists, no traversal state and the flag clear, the call
    returns (or raises) and leaves the object exactly as it found it, so
    that the same call can be repeated with the same outcome. *)
Theorem find_path_pure (g : Graph) (start_node end_node : Node) :
  NoDup (nodes g).*1 → symmetric (nodes g) → clean g → _has_path g = false →
  ∃ r, find_path g start_node end_node = Some (r, g).
Proof.
  unfold nodes. intros Hnd Hsym Hclean Hflag.
  pose proof (symmetric_closed _ Hnd Hsym) as Hcl.
  unfold find_path.
  destruct (_validate_nodes_cases g start_node end_node) as [Hval|[n ->]];
    [|by eexists].
  rewrite Hval.
  destruct (find_path_run g start_node end_node Hclean Hval)
    as (g1 & l & -> & _ & _ & _ & _ & _ & Hq & Hc & Hn).
  destruct (take_path_spec g1) as (_ & Hc' & Hn' & Hq' & Hp' & Hv' & Ho').
  destruct (take_path g1) as [path g2]. cbn [fst snd] in *.
  exists (Ret path). do 2 f_equal.
  destruct Hclean as [Hv Ho].
  apply graph_eq; [congruence|congruence| |congruence|congruence|congruence].
  rewrite Hn'. by apply Hn.
Qed.

Lemma find_path_pure_witness :
  ∃ r, find_path cycle4 A C = Some (r, cycle4).
Proof.
  apply (find_path_pure cycle4 A C).
  - apply (bool_decide_unpack _). vm_compute. exact I.
  - apply symmetricb_sound. vm_compute. reflexivity.
  - split; reflexivity.
  - reflexivity.
Defined.

(** X6.  A sequence returned by [find_path] on an object without traversal
    state has no duplicates, starts with the start node, and holds exactly
    the nodes that can be reached from the start node along edges without
    passing through the end node. *)
Theorem find_path_enumerates (g g' : Graph) (start_node end_node : Node)
    (path : list Node) :
  clean g →
  find_path g start_node end_node = Some (Ret (Some path), g') →
  NoDup path
  ∧ head path = Some start_node
  ∧ ∀ n, n ∈ path ↔ reach (nodes g) end_node start_node n.
Proof.
  unfold nodes. intros Hclean. unfold find_path.
  destruct (_validate_nodes_cases g start_node end_node) as [Hval|[n ->]];
    [|done].
  rewrite Hval.
  destruct (find_path_run g start_node end_node Hclean Hval)
    as (g1 & l & -> & Ho & Hnd & Hhd & Hl & _).
  unfold take_path. destruct (_has_path g1); [|done].
  intros [= <- _]. by rewrite Ho.
Qed.

Lemma find_path_enumerates_witness :
  NoDup [A; B; C]
  ∧ head [A; B; C] = Some A
  ∧ ∀ n, n ∈ [A; B; C] ↔ reach (nodes star3) B A n.
Proof.
  apply (find_path_enumerates star3 star3 A B [A; B; C]).
  - split; reflexivity.
  - vm_compute. reflexivity.
Defined.

(** X7.  On an object without traversal state and with the flag clear,
    when validation passes, [find_path] returns a sequence exactly when the
    end node is connected to the start node by edges, and [None] exactly
    when it is not. *)
Theorem find_path_iff_connected (g : Graph) (start_node end_node : Node) :
  clean g → _has_path g = false →
  _validate_nodes g start_node end_node = Ret tt →
  ∃ r g', find_path g start_node end_node = Some (Ret r, g')
          ∧ (is_Some r ↔ connected (nodes g) start_node end_node).
Proof.
  unfold nodes. intros Hclean Hflag Hval. unfold find_path. rewrite Hval.
  destruct (find_path_run g start_node end_node Hclean Hval)
    as (g1 & l & -> & Ho & _ & _ & Hl & Hp & _).
  rewrite Hflag in Hp. simpl in Hp.
  unfold take_path. rewrite Hp, Ho.
  destruct (bool_decide (end_node ∈ l)) eqn:Hin; eexists _, _;
    (split; [done|]).
  - apply bool_decide_eq_true in Hin. split; [|by eexists].
    intros _. eapply reach_connected. by apply Hl.
  - apply bool_decide_eq_false in Hin. split; [by intros [? ?]|].
    intros Hc. exfalso. apply Hin, Hl. by apply connected_reach.
Qed.

Lemma find_path_iff_connected_witness :
  ∃ r g', find_path two_edges A D = Some (Ret r, g')
          ∧ (is_Some r ↔ connected (nodes two_edges) A D).
Proof.
  apply (find_path_iff_connected two_edges A D).
  - split; reflexivity.
  - reflexivity.
  - reflexivity.
Defined.

(** X8.  On an object whose queue is empty and whose flag is clear, when
    validation passes, [find_shortest_path] returns a sequence exactly when
    the end node is connected to the start node by edges, and [None]
    exactly when it is not. *)
Theorem find_shortest_path_iff_connected
    (g : Graph) (start_node end_node : Node) :
  _fifo_queue g = [] → _has_path g = false →
  _validate_nodes g start_node end_node = Ret tt →
  ∃ r g', find_shortest_path g start_node end_node = Some (Ret r, g')
          ∧ (is_Some r ↔ connected (nodes g) start_node end_node).
Proof.
  unfold nodes. intros Hqueue Hflag Hval.
  unfold find_shortest_path. rewrite Hval.
  destruct (find_shortest_path_run g start_node end_node Hqueue)
    as (g1 & l & -> & Ho & _ & _ & Hfound & Hreach).
  unfold take_path.
  destruct (_has_path g1) eqn:Hp; eexists _, _; (split; [done|]).
  - split; [|by eexists]. intros _.
    destruct (Hfound eq_refl) as [?|[Hr _]]; [congruence|].
    by eapply reach_connected.
  - split; [by intros [? ?]|]. intros Hc.
    apply connected_reach, Hreach in Hc. congruence.
Qed.

Lemma find_shortest_path_iff_connected_witness :
  ∃ r g', find_shortest_path two_edges A D = Some (Ret r, g')
          ∧ (is_Some r ↔ connected (nodes two_edges) A D).
Proof.
  apply (find_shortest_path_iff_connected two_edges A D).
  - reflexivity.
  - reflexivity.
  - reflexivity.
Defined.

(** X9.  A sequence returned by [find_shortest_path] on an object whose
    queue is empty and whose flag is clear has no duplicates, starts with
    the start node, contains the end node, and holds only nodes connected
    to the start node. *)
Theorem find_shortest_path_sequence (g g' : Graph)
    (start_node end_node : Node) (path : list Node) :
  _fifo_queue g = [] → _has_path g = false →
  find_shortest_path g start_node end_node = Some (Ret (Some path), g') →
  NoDup path
  ∧ head path = Some start_node
  ∧ end_node ∈ path
  ∧ ∀ n, n ∈ path → connected (nodes g) start_node n.
Proof.
  unfold nodes. intros Hqueue Hflag. unfold find_shortest_path.
  destruct (_validate_nodes_cases g start_node end_node) as [->|[n ->]];
    [|done].
  destruct (find_shortest_path_run g start_node end_node Hqueue)
    as (g1 & l & -> & Ho & Hnd & Hl & Hfound & _).
  unfold take_path. destruct (_has_path g1) eqn:Hp; [|done].
  intros [= <- _]. rewrite Ho. split_and!; [done|done| |].
  - destruct (Hfound eq_refl) as [?|[_ ?]]; [congruence|done].
  - intros n Hn. eapply reach_connected. by apply Hl.
Qed.

Lemma find_shortest_path_sequence_witness :
  NoDup [A; B; D; C]
  ∧ head [A; B; D; C] = Some A
  ∧ C ∈ [A; B; D; C]
  ∧ ∀ n, n ∈ [A; B; D; C] → connected (nodes cycle4) A n.
Proof.
  apply (find_shortest_path_sequence cycle4 cycle4 A C [A; B; D; C]).
  - reflexivity.
  - reflexivity.
  - vm_compute. reflexivity.
Defined.

Lemma bfs_not_longer_than_dfs_witness :
  length [A; B; D; C] ≤ length [A; B; C; D].
Proof.
  apply (bfs_not_longer_than_dfs cycle4 cycle4 cycle4 A C
           [A; B; C; D] [A; B; D; C]).
  - split; reflexivity.
  - reflexivity.
  - vm_compute. reflexivity.
  - vm_compute. reflexivity.
Defined.

(** The flag after the loop of [connected_components] is the flag before it,
    unless [None] was visited. *)
Lemma cc_loop_flag (size0 : nat) (keys : list Node) :
  ∀ (g g' : Graph) (r : res unit),
    cc_loop size0 keys g = Some (r, g') →
    PyNone ∉ _visited_nodes g' →
    _has_path g' = _has_path g.
Proof.
  induction keys as [|node keys IH]; intros g g' r.
  - simpl. by intros [= _ <-].
  - rewrite cc_loop_cons.
    set (g1 := nodes_touch node g).
    destruct (_has_traversable_neighbours (nodes_item g node)
              && bool_decide (node ∉ _visited_nodes g1)) eqn:Hcond.
    + destruct (_dfs (dfs_budget g1) node PyNone g1) as [g2|] eqn:Hdfs;
        [|done].
      apply andb_true_iff in Hcond as [_ Hfresh].
      apply bool_decide_eq_true in Hfresh.
      destruct (_dfs_adds _ _ _ _ _ Hfresh Hdfs)
        as (l & (Ho & _ & Hl & _) & _).
      destruct (_dfs_flag _ _ _ _ _ Hdfs) as (l' & Ho' & Hp).
      assert (l = node :: l') as Heq.
      { rewrite Ho in Ho'. by apply app_inv_head in Ho'. }
      rewrite <- Heq in Hp.
      destruct (bool_decide (length (_nodes g2) ≠ size0)).
      * intros [= _ <-] Hnone. rewrite Hp.
        rewrite bool_decide_eq_false_2; [by rewrite orb_false_r|].
        intros Hin. apply Hnone. by apply Hl in Hin as [? _].
      * intros Hloop Hnone.
        destruct (cc_loop_spec size0 keys g2)
          as (r0 & g0 & Heq0 & _ & _ & Hsub & _).
        rewrite Hloop in Heq0. injection Heq0 as <- <-.
        rewrite (IH _ _ _ Hloop Hnone), Hp.
        rewrite bool_decide_eq_false_2; [by rewrite orb_false_r|].
        intros Hin. apply Hnone, Hsub. by apply Hl in Hin as [? _].
    + destruct (bool_decide (length (_nodes g1) ≠ size0)).
      * by intros [= _ <-].
      * intros Hloop Hnone. by rewrite (IH _ _ _ Hloop Hnone).
Qed.

(** X11.  [connected_components] is a pure query on a well-formed object
    that does not use [None] as a node: with unique keys, symmetric lists
    and no traversal state, it returns a set and leaves the object, the
    found flag and the queue included, exactly as it found it. *)
Theorem connected_components_pure (g : Graph) :
  NoDup (nodes g).*1 → symmetric (nodes g) → clean g →
  dict_contains (nodes g) PyNone = false →
  ∃ comps, connected_components g = Some (Ret comps, g).
Proof.
  unfold nodes. intros Hnd Hsym [Hvis Hord] Hnone.
  pose proof (symmetric_closed _ Hnd Hsym) as Hcl.
  unfold connected_components.
  destruct (cc_loop_spec (length (_nodes g)) (_nodes g).*1 g)
    as (r & g' & Hloop & Hst & Hq & Hsub & Hcond).
  destruct Hcond as (-> & Hn & _ & Hnew); [done| |done|].
  { intros k Hk. by apply dict_contains_elem. }
  rewrite Hloop. eexists. do 2 f_equal.
  apply graph_eq; simpl;
    [apply (store_cls _ _ Hst)|done|done|done|done|].
  eapply cc_loop_flag; [exact Hloop|].
  intros Hin. destruct (Hnew _ Hin) as [H1|[H1|[H1 _]]].
  - rewrite Hvis in H1. by apply not_elem_of_empty in H1.
  - apply Hcl in H1. congruence.
  - apply dict_contains_elem in H1. congruence.
Qed.

Lemma connected_components_pure_witness :
  ∃ comps, connected_components two_edges = Some (Ret comps, two_edges).
Proof.
  apply (connected_components_pure two_edges).
  - apply (bool_decide_unpack _). vm_compute. exact I.
  - apply symmetricb_sound. vm_compute. reflexivity.
  - split; reflexivity.
  - reflexivity.
Defined.

(** X12.  Whatever traversal state an object holds before the call, when
    [find_path] or [find_shortest_path] returns normally the visited set
    and the order are empty and the found flag is clear. *)
Theorem queries_reset_traversal_state (g g' : Graph)
    (start_node end_node : Node) (path : option (list Node)) :
  find_path g start_node end_node = Some (Ret path, g')
  ∨ find_shortest_path g start_node end_node = Some (Ret path, g') →
  _visited_nodes g' = ∅ ∧ _traversal_order g' = [] ∧ _has_path g' = false.
Proof.
  intros [Hp|Hp].
  - by apply find_path_clears in Hp as ([? ?] & ? & _).
  - by apply find_shortest_path_clears in Hp as ([? ?] & ?).
Qed.

Lemma queries_reset_traversal_state_witness :
  _visited_nodes (set_fifo_queue [D] cycle4) = ∅
  ∧ _traversal_order (set_fifo_queue [D] cycle4) = []
  ∧ _has_path (set_fifo_queue [D] cycle4) = false.
Proof.
  apply (queries_reset_traversal_state
           (set_has_path true (record_visit C cycle4))
           (set_fifo_queue [D] cycle4) A B (Some [A; B; D])).
  right. vm_compute. reflexivity.
Defined.

(** ** The cycle detector on edge cases *)

Lemma dict_item_no_entries (d : Dict) (k : Node) :
  dict_entries d = [] → dict_item d k = [].
Proof.
  intros Hd. destruct (dict_item d k) as [|e l] eqn:Hl; [done|].
  assert (e ∈ dict_entries d) as Hin.
  { eapply dict_item_entries. rewrite Hl. left. }
  rewrite Hd in Hin. by apply elem_of_nil in Hin.
Qed.

Lemma is_cyclic_loop_no_entries (fuel : nat) (d : Dict) (keys : list Node) :
  dict_entries d = [] →
  ∀ vis : gmap Node bool,
    (∀ k, k ∈ keys → is_Some (vis !! k)) →
    is_cyclic_loop (S fuel) d keys vis = Some (Ret false).
Proof.
  intros Hd. induction keys as [|node keys IH]; intros vis Hkeys; [done|].
  cbn [is_cyclic_loop].
  destruct (Hkeys node) as [b Hb]; [left|]. rewrite Hb.
  assert (Hrest : ∀ k, k ∈ keys → is_Some (vis !! k))
    by (intros k Hk; apply Hkeys; by right).
  destruct b; [by apply IH|].
  cbn [_detect_cycles]. rewrite (dict_item_no_entries d node Hd).
  cbn [detect_scan]. apply IH. intros k Hk.
  destruct (decide (k = node)) as [->|Hne].
  - rewrite lookup_insert_eq. by eexists.
  - rewrite lookup_insert_ne by done. by apply Hrest.
Qed.

(** X13.  A graph without any edge record is never reported as cyclic:
    [is_cyclic] returns [False] whatever nodes it holds. *)
Theorem is_cyclic_no_edges (g : Graph) :
  dict_entries (nodes g) = [] → is_cyclic g = Some (Ret false).
Proof.
  unfold nodes. intros Hd. unfold is_cyclic.
  apply is_cyclic_loop_no_entries; [done|].
  intros k Hk.
  destruct (is_cyclic_visited_init (_nodes g).*1) as [Hdom _].
  cbv zeta in Hdom. apply elem_of_dom. rewrite Hdom.
  by apply elem_of_list_to_set.
Qed.

Lemma is_cyclic_no_edges_witness : is_cyclic isolated3 = Some (Ret false).
Proof. apply (is_cyclic_no_edges isolated3). reflexivity. Defined.

(** An exploration that reports no back-edge has met no self-loop: neither
    at the current node nor at any node it visited. *)
Lemma Explore_no_self_loop (d : Dict) v c p es v' b :
  Explore d v c p es v' b →
  b = false → c ∈ v → p ≠ Some c →
  (∀ w, (c, w) ∉ es)
  ∧ v ⊆ v'
  ∧ (∀ n, n ∈ v' → n ∉ v → ∀ w, (n, w) ∉ dict_item d n).
Proof.
  induction 1 as [v c p|v c p nb w es Hin Hp|v c p nb w es v' b Hin Hp _ IH
                 |v c p nb w es v' Hnin _ IH
                 |v c p nb w es v' v'' b Hnin _ IH1 _ IH2];
    intros Hb Hc Hpc; try done.
  - split_and!; [|done|done]. intros w. apply not_elem_of_nil.
  - destruct (IH Hb Hc Hpc) as (Hes & Hsub & Hnew).
    split_and!; [|done|done].
    intros w0 Hw. apply elem_of_cons in Hw as [Hw|Hw]; [|by eapply Hes].
    injection Hw as <- _. by subst p.
  - assert (Hne : nb ≠ c) by (intros ->; done).
    destruct IH1 as (Hes1 & Hsub1 & Hnew1);
      [done|apply elem_of_union; right; by apply elem_of_singleton
      |intros [= ?]; done|].
    destruct (IH2 Hb) as (Hes2 & Hsub2 & Hnew2);
      [apply Hsub1; apply elem_of_union; by left|done|].
    split_and!.
    + intros w0 Hw. apply elem_of_cons in Hw as [Hw|Hw]; [|by eapply Hes2].
      injection Hw as <- _. done.
    + clear -Hsub1 Hsub2. set_solver.
    + intros n Hn Hnv w0.
      destruct (decide (n ∈ v')) as [Hn'|Hn']; [|by apply Hnew2].
      destruct (decide (n = nb)) as [->|Hnb]; [by apply Hes1|].
      apply Hnew1; [done|]. clear -Hnv Hnb. set_solver.
Qed.

Lemma ExploreRoots_no_self_loop (d : Dict) v roots b :
  ExploreRoots d v roots b →
  b = false →
  ∀ k, k ∈ roots → k ∈ v ∨ ∀ w, (k, w) ∉ dict_item d k.
Proof.
  induction 1 as [v|v n ns b Hin _ IH|v n ns v' Hnin Hex
                 |v n ns v' b Hnin Hex _ IH];
    intros Hb k Hk; try done.
  - by apply elem_of_nil in Hk.
  - apply elem_of_cons in Hk as [->|Hk]; [by left|by apply IH].
  - destruct (Explore_no_self_loop _ _ _ _ _ _ _ Hex) as (Hes & Hsub & Hnew);
      [done|apply elem_of_union; right; by apply elem_of_singleton|done|].
    apply elem_of_cons in Hk as [->|Hk]; [by right|].
    destruct (IH Hb k Hk) as [Hkv|?]; [|by right].
    destruct (decide (k ∈ v)) as [?|Hkv']; [by left|]. right.
    destruct (decide (k = n)) as [->|Hne]; [done|].
    apply Hnew; [done|]. clear -Hkv' Hne. set_solver.
Qed.

(** X14.  A self-loop is reported as a cycle: on the storage of an
    undirected graph (unique keys, symmetric lists, [None] not a node) in
    which some node has an edge record to itself, [is_cyclic] returns
    [True]. *)
Theorem is_cyclic_self_loop (g : Graph) (u : Node) (w : Weight) :
  NoDup (nodes g).*1 → symmetric (nodes g) →
  dict_contains (nodes g) PyNone = false →
  (u, w) ∈ dict_item (nodes g) u →
  is_cyclic g = Some (Ret true).
Proof.
  unfold nodes. intros Hnd Hsym Hnone Hloop.
  pose proof (symmetric_closed _ Hnd Hsym) as Hcl.
  destruct (is_cyclic_visited_init (_nodes g).*1) as [Hdom Hmarked].
  cbv zeta in Hdom, Hmarked.
  destruct (is_cyclic_loop_spec (S (length (dict_entries (_nodes g))))
              (_nodes g) ltac:(lia) (_nodes g).*1
              (list_to_map ((λ node, (node, false)) <$> (_nodes g).*1)))
    as (r & Hr & Hcond).
  destruct Hcond as (b & -> & Hex).
  { intros n Hn. rewrite Hdom. apply elem_of_list_to_set.
    apply dict_contains_elem. by apply Hcl. }
  { intros Hn. apply Hcl in Hn. congruence. }
  { intros k Hk. rewrite Hdom. by apply elem_of_list_to_set. }
  fold (is_cyclic g) in Hr. rewrite Hr.
  destruct b; [done|]. exfalso.
  rewrite Hmarked in Hex.
  assert (Hkey : u ∈ (_nodes g).*1).
  { apply dict_contains_elem.
    destruct (dict_contains (_nodes g) u) eqn:Hc; [done|].
    apply dict_item_missing in Hc. rewrite Hc in Hloop.
    by apply elem_of_nil in Hloop. }
  destruct (ExploreRoots_no_self_loop _ _ _ _ Hex eq_refl u Hkey) as [Hin|Hno].
  - by apply not_elem_of_empty in Hin.
  - by apply (Hno w).
Qed.

Lemma is_cyclic_self_loop_witness :
  is_cyclic (undirected [A; B] [(A, B); (B, B)]) = Some (Ret true).
Proof.
  apply (is_cyclic_self_loop (undirected [A; B] [(A, B); (B, B)]) B None).
  - apply (bool_decide_unpack _). vm_compute. exact I.
  - apply symmetricb_sound. vm_compute. reflexivity.
  - reflexivity.
  - apply (bool_decide_unpack _). vm_compute. exact I.
Defined.

(** ** Insertion followed by a query *)

Lemma dict_contains_append (d : Dict) (k k' : Node) (e : Edge) :
  dict_contains d k = true → dict_contains (dict_append d k' e) k = true.
Proof.
  rewrite !dict_contains_elem, dict_append_keys. unfold dict_touch.
  destruct (dict_contains d k'); [done|].
  rewrite fmap_app. intros Hk. apply elem_of_app. by left.
Qed.

Lemma find_path_finds (g : Graph) (start_node end_node : Node) :
  clean g → _has_path g = false →
  _validate_nodes g start_node end_node = Ret tt →
  connected (_nodes g) start_node end_node →
  ∃ path g', find_path g start_node end_node = Some (Ret (Some path), g').
Proof.
  intros Hclean Hflag Hval Hconn. unfold find_path. rewrite Hval.
  destruct (find_path_run g start_node end_node Hclean Hval)
    as (g1 & l & -> & Ho & _ & _ & Hl & Hp & _).
  rewrite Hflag in Hp. simpl in Hp.
  rewrite bool_decide_eq_true_2 in Hp
    by (by apply Hl, connected_reach).
  unfold take_path. rewrite Hp. by eexists _, _.
Qed.

Lemma find_shortest_path_finds (g : Graph) (start_node end_node : Node) :
  _fifo_queue g = [] →
  _validate_nodes g start_node end_node = Ret tt →
  connected (_nodes g) start_node end_node →
  ∃ path g',
    find_shortest_path g start_node end_node = Some (Ret (Some path), g').
Proof.
  intros Hqueue Hval Hconn. unfold find_shortest_path. rewrite Hval.
  destruct (find_shortest_path_run g start_node end_node Hqueue)
    as (g1 & l & -> & Ho & _ & _ & _ & Hreach).
  unfold take_path. rewrite (Hreach (connected_reach _ _ _ Hconn)).
  by eexists _, _.
Qed.

(** X15.  An inserted edge can be walked in both directions: after
    [add_edge(u, v, w)] on an undirected graph that holds both nodes (no
    traversal state, flag clear, queue empty), [find_path] and
    [find_shortest_path] return a sequence from [u] to [v] and from [v] to
    [u]. *)
Theorem add_edge_connects (g : Graph) (u v : Node) (w : Weight) :
  cls g = UndirectedGraph →
  clean g → _has_path g = false → _fifo_queue g = [] →
  dict_contains (nodes g) u = true → dict_contains (nodes g) v = true →
  (∃ p g', find_path (add_edge g u v w).2 u v = Some (Ret (Some p), g'))
  ∧ (∃ p g', find_path (add_edge g u v w).2 v u = Some (Ret (Some p), g'))
  ∧ (∃ p g', find_shortest_path (add_edge g u v w).2 u v
             = Some (Ret (Some p), g'))
  ∧ (∃ p g', find_shortest_path (add_edge g u v w).2 v u
             = Some (Ret (Some p), g')).
Proof.
  unfold nodes. intros Hcls Hclean Hflag Hqueue Hu Hv.
  unfold add_edge, _add_edge. rewrite Hcls.
  destruct (UndirectedGraph_add_edge_spec g u v w)
    as [(n & _ & Hval)|(g' & -> & _ & ->)].
  { rewrite _validate_nodes_spec, Hu, Hv in Hval. done. }
  cbn [snd].
  set (g' := set_nodes
               (dict_append (dict_append (_nodes g) u (v, w)) v (u, w)) g).
  assert (Hu' : dict_contains (_nodes g') u = true)
    by (by do 2 apply dict_contains_append).
  assert (Hv' : dict_contains (_nodes g') v = true)
    by (by do 2 apply dict_contains_append).
  assert (Huv : connected (_nodes g') u v).
  { apply rtc_once. exists w. simpl. rewrite dict_item_add_edge.
    rewrite decide_True by done. rewrite !elem_of_app. right. left. left. }
  assert (Hvu : connected (_nodes g') v u).
  { apply rtc_once. exists w. simpl. rewrite dict_item_add_edge.
    rewrite (decide_True (P := v = v)) by done.
    rewrite !elem_of_app. right. right. left. }
  assert (Hval1 : _validate_nodes g' u v = Ret tt)
    by (by rewrite _validate_nodes_spec, Hu', Hv').
  assert (Hval2 : _validate_nodes g' v u = Ret tt)
    by (by rewrite _validate_nodes_spec, Hu', Hv').
  split_and!.
  - by apply find_path_finds.
  - by apply find_path_finds.
  - by apply find_shortest_path_finds.
  - by apply find_shortest_path_finds.
Qed.

Lemma add_edge_connects_witness :
  (∃ p g', find_path (add_edge two_edges B C (Some 5%Z)).2 B C
           = Some (Ret (Some p), g'))
  ∧ (∃ p g', find_path (add_edge two_edges B C (Some 5%Z)).2 C B
             = Some (Ret (Some p), g'))
  ∧ (∃ p g', find_shortest_path (add_edge two_edges B C (Some 5%Z)).2 B C
             = Some (Ret (Some p), g'))
  ∧ (∃ p g', find_shortest_path (add_edge two_edges B C (Some 5%Z)).2 C B
             = Some (Ret (Some p), g')).
Proof.
  apply (add_edge_connects two_edges B C (Some 5%Z)).
  - reflexivity.
  - split; reflexivity.
  - reflexivity.
  - reflexivity.
  - reflexivity.
  - reflexivity.
Defined.

(** ** The weights are never consulted *)

Section reweight.
Variable f : Weight → Weight.

Lemma reweight_get (d : Dict) (k : Node) :
  dict_get (reweight_dict f d) k
  = fmap (M := list) (reweight_edge f) <$> dict_get d k.
Proof.
  induction d as [|[k0 l] d IH]; simpl; [done|].
  by destruct (decide (k = k0)).
Qed.

Lemma reweight_contains (d : Dict) (k : Node) :
  dict_contains (reweight_dict f d) k = dict_contains d k.
Proof.
  unfold dict_contains. rewrite reweight_get. by destruct (dict_get d k).
Qed.

Lemma reweight_item (d : Dict) (k : Node) :
  dict_item (reweight_dict f d) k = reweight_edge f <$> dict_item d k.
Proof.
  unfold dict_item. rewrite reweight_get. by destruct (dict_get d k).
Qed.

Lemma reweight_touch (d : Dict) (k : Node) :
  dict_touch (reweight_dict f d) k = reweight_dict f (dict_touch d k).
Proof.
  unfold dict_touch. rewrite reweight_contains.
  destruct (dict_contains d k); [done|].
  unfold reweight_dict. by rewrite fmap_app.
Qed.

Lemma reweight_entries (d : Dict) :
  dict_entries (reweight_dict f d) = reweight_edge f <$> dict_entries d.
Proof.
  unfold dict_entries.
  induction d as [|[k0 l] d IH]; simpl; [done|].
  rewrite fmap_app. f_equal. exact IH.
Qed.

Lemma reweight_keys (d : Dict) : (reweight_dict f d).*1 = d.*1.
Proof.
  unfold reweight_dict. rewrite <- list_fmap_compose.
  by apply list_fmap_ext.
Qed.

Lemma reweight_validate (g : Graph) (s e : Node) :
  _validate_nodes (reweight f g) s e = _validate_nodes g s e.
Proof.
  unfold _validate_nodes, reweight. simpl. by rewrite !reweight_contains.
Qed.

Lemma reweight_dfs_budget (g : Graph) :
  dfs_budget (reweight f g) = dfs_budget g.
Proof.
  unfold dfs_budget, reweight. simpl.
  by rewrite reweight_entries, length_fmap.
Qed.

Lemma reweight_nodes_touch (k : Node) (g : Graph) :
  nodes_touch k (reweight f g) = reweight f (nodes_touch k g).
Proof.
  unfold nodes_touch, reweight, set_nodes. simpl.
  by rewrite reweight_touch.
Qed.

Lemma reweight_for_each (body : Edge → Graph → option Graph) :
  (∀ x g, body (reweight_edge f x) (reweight f g)
          = reweight f <$> body x g) →
  ∀ l g, for_each body (reweight_edge f <$> l) (reweight f g)
         = reweight f <$> for_each body l g.
Proof.
  intros Hbody l. induction l as [|x l IH]; intros g; simpl; [done|].
  rewrite Hbody. destruct (body x g) as [g1|]; simpl; [apply IH|done].
Qed.

Lemma reweight_dfs (fuel : nat) (e : Node) :
  ∀ node g,
    _dfs fuel node e (reweight f g) = reweight f <$> _dfs fuel node e g.
Proof.
  induction fuel as [|fuel IH]; intros node g; simpl; [done|].
  destruct (decide (node = e)); [done|].
  change (record_visit node (reweight f g))
    with (reweight f (record_visit node g)).
  rewrite reweight_nodes_touch.
  unfold nodes_item. change (_nodes (reweight f (record_visit node g)))
    with (reweight_dict f (_nodes g)).
  rewrite reweight_item.
  apply reweight_for_each. intros x g0. unfold edge_key. simpl.
  destruct (decide (x.1 ∈ _visited_nodes g0)); [done|apply IH].
Qed.

Lemma reweight_bfs_edges (es : list Edge) :
  ∀ g, foldl bfs_visit_edge (reweight f g) (reweight_edge f <$> es)
       = reweight f (foldl bfs_visit_edge g es).
Proof.
  induction es as [|x es IH]; intros g; simpl; [done|].
  rewrite <- IH. f_equal. unfold bfs_visit_edge, edge_key. simpl.
  by destruct (decide (x.1 ∈ _visited_nodes g)).
Qed.

Lemma reweight_bfs_loop (fuel : nat) (e : Node) :
  ∀ g, bfs_loop fuel e (reweight f g) = reweight f <$> bfs_loop fuel e g.
Proof.
  induction fuel as [|fuel IH]; intros g; simpl; [done|].
  destruct (_fifo_queue g) as [|current q]; simpl; [done|].
  destruct (decide (current = e)); [done|].
  change (set_fifo_queue q (reweight f g))
    with (reweight f (set_fifo_queue q g)).
  rewrite reweight_nodes_touch.
  unfold nodes_item. change (_nodes (reweight f (set_fifo_queue q g)))
    with (reweight_dict f (_nodes g)).
  rewrite reweight_item, reweight_bfs_edges. apply IH.
Qed.

Lemma reweight_bfs_start (s : Node) (g : Graph) :
  bfs_start s (reweight f g) = reweight f (bfs_start s g).
Proof.
  unfold bfs_start. simpl.
  destruct (bool_decide (size (_visited_nodes g) ≠ 0)); simpl;
    by destruct (bool_decide (length _ ≠ 0)).
Qed.

Lemma reweight_take_path (g : Graph) :
  take_path (reweight f g) = ((take_path g).1, reweight f (take_path g).2).
Proof. unfold take_path. simpl. by destruct (_has_path g). Qed.

Lemma reweight_cc_loop (size0 : nat) (keys : list Node) :
  ∀ g, cc_loop size0 keys (reweight f g)
       = (λ rg, (rg.1, reweight f rg.2)) <$> cc_loop size0 keys g.
Proof.
  induction keys as [|node keys IH]; intros g; [done|].
  rewrite !cc_loop_cons. rewrite reweight_nodes_touch, reweight_dfs_budget.
  unfold nodes_item. change (_nodes (reweight f g))
    with (reweight_dict f (_nodes g)).
  rewrite reweight_item, reweight_dfs.
  assert (Hh : _has_traversable_neighbours
                 (reweight_edge f <$> dict_item (_nodes g) node)
               = _has_traversable_neighbours (dict_item (_nodes g) node)).
  { unfold _has_traversable_neighbours. by rewrite length_fmap. }
  rewrite Hh.
  change (_visited_nodes (reweight f (nodes_touch node g)))
    with (_visited_nodes (nodes_touch node g)).
  destruct (_has_traversable_neighbours (dict_item (_nodes g) node)
            && bool_decide (node ∉ _visited_nodes (nodes_touch node g))).
  - destruct (_dfs _ _ _ (nodes_touch node g)) as [g2|]; simpl; [|done].
    unfold reweight_dict. rewrite length_fmap.
    destruct (bool_decide (length (_nodes g2) ≠ size0)); [done|apply IH].
  - simpl. unfold reweight_dict. rewrite length_fmap.
    destruct (bool_decide (length (dict_touch (_nodes g) node) ≠ size0));
      [done|apply IH].
Qed.

Lemma reweight_detect_scan rec1 rec2 (p : Node) (es : list Edge) :
  (∀ n v, rec1 n v = rec2 n v) →
  ∀ vis, detect_scan rec1 p (reweight_edge f <$> es) vis
         = detect_scan rec2 p es vis.
Proof.
  intros Hrec. induction es as [|x es IH]; intros vis; [done|].
  rewrite fmap_cons, !detect_scan_cons. simpl.
  destruct (vis !! x.1) as [[|]|]; [|rewrite Hrec|done].
  - destruct (decide (p ≠ x.1)); [done|apply IH].
  - destruct (rec2 x.1 vis) as [[[[|]|err] vis1]|]; [done|apply IH|done|done].
Qed.

Lemma reweight_detect_cycles (fuel : nat) (d : Dict) :
  ∀ c vis p,
    _detect_cycles fuel (reweight_dict f d) c vis p
    = _detect_cycles fuel d c vis p.
Proof.
  induction fuel as [|fuel IH]; intros c vis p; simpl; [done|].
  rewrite reweight_item. apply reweight_detect_scan.
  intros n v. apply IH.
Qed.

Lemma reweight_is_cyclic_loop (fuel : nat) (d : Dict) (keys : list Node) :
  ∀ vis, is_cyclic_loop fuel (reweight_dict f d) keys vis
         = is_cyclic_loop fuel d keys vis.
Proof.
  induction keys as [|node keys IH]; intros vis; [done|].
  cbn [is_cyclic_loop]. rewrite reweight_detect_cycles.
  destruct (vis !! node) as [[|]|]; [apply IH| |done].
  destruct (_detect_cycles fuel d node vis PyNone)
    as [[[[|]|err] vis1]|]; [done|apply IH|done|done].
Qed.

(** X16.  No query consults the weights: on the object whose every weight
    [w] is replaced by [f w], [find_path], [find_shortest_path],
    [connected_components] and [is_cyclic] give the same result as on the
    original object, and leave the reweighted version of the object they
    leave there. *)
Theorem weights_not_consulted (g : Graph) (start_node end_node : Node) :
  find_path (reweight f g) start_node end_node
  = (λ rg, (rg.1, reweight f rg.2)) <$> find_path g start_node end_node
  ∧ find_shortest_path (reweight f g) start_node end_node
    = (λ rg, (rg.1, reweight f rg.2))
        <$> find_shortest_path g start_node end_node
  ∧ connected_components (reweight f g)
    = (λ rg, (rg.1, reweight f rg.2)) <$> connected_components g
  ∧ is_cyclic (reweight f g) = is_cyclic g.
Proof.
  split_and!.
  - unfold find_path.
    rewrite reweight_validate, reweight_dfs_budget, reweight_dfs.
    destruct (_validate_nodes g start_node end_node); [|done].
    destruct (_dfs _ _ _ g) as [g1|]; cbn [fmap option_fmap option_map];
      [|done].
    rewrite reweight_take_path. by destruct (take_path g1).
  - unfold find_shortest_path, _bfs.
    rewrite reweight_validate, reweight_bfs_start, reweight_bfs_loop.
    destruct (_validate_nodes g start_node end_node); [|done].
    assert (Hb : bfs_budget (reweight f (bfs_start start_node g))
                 = bfs_budget (bfs_start start_node g)).
    { unfold bfs_budget, reweight. simpl.
      by rewrite reweight_entries, length_fmap. }
    rewrite Hb.
    destruct (bfs_loop _ _ (bfs_start start_node g)) as [g1|];
      cbn [fmap option_fmap option_map]; [|done].
    rewrite reweight_take_path. by destruct (take_path g1).
  - unfold connected_components.
    change (_nodes (reweight f g)) with (reweight_dict f (_nodes g)).
    rewrite reweight_keys. unfold reweight_dict at 1. rewrite length_fmap.
    rewrite reweight_cc_loop.
    by destruct (cc_loop _ _ g) as [[[[]|err] g1]|].
  - unfold is_cyclic.
    change (_nodes (reweight f g)) with (reweight_dict f (_nodes g)).
    rewrite reweight_keys, reweight_entries, length_fmap.
    apply reweight_is_cyclic_loop.
Qed.
End reweight.
